(** * Order ranking and pinning decisions of [src/utils/order_utils.ts]

    A shallow embedding of the comparators ([compareAskOrder],
    [compareBidOrder], [compareOrderByFeeRatio]), of the signature wire format
    ([serializeSignature], [deserializeSignature]) and of the pinning
    classifier ([getPoolsAsync], [splitOrdersByPinningAsync]), with the
    properties the specification states about them. *)

From Stdlib Require Import ZArith Lia Bool List Ascii String Permutation SpecFloat.
From stdpp Require Import base list strings.
Import ListNotations.

Local Open Scope Z_scope.

(** ** [BigNumber] (bignumber.js, as re-exported by [@0x/utils])

    A BigNumber is NaN, a signed infinity, or a finite decimal.  A finite
    value is kept as [coefficient / 10 ^ places].  Only the operations the
    module calls are embedded: [div], [comparedTo], [isEqualTo]. *)
Module BigNumber.

Inductive t : Type :=
| NaN
| Infinity (negative : bool)
| Decimal (coefficient : Z) (places : N).

(** [new BigNumber(n)] for an integer [n]. *)
Definition of_Z (n : Z) : t := Decimal n 0.

Definition pow10 (e : N) : Z := 10 ^ Z.of_N e.

(** The integer nearest to [n / d], a tie going away from zero: rounding
    mode ROUND_HALF_UP, the library's default [ROUNDING_MODE]. *)
Definition round_half_up (n d : Z) : Z :=
  Z.sgn n * Z.sgn d * ((2 * Z.abs n + Z.abs d) / (2 * Z.abs d)).

Definition number_of_comparison (c : comparison) : Z :=
  match c with Lt => -1 | Eq => 0 | Gt => 1 end.

(** [x.comparedTo(y)]: 1, -1 or 0, and [null] (here [None]) when either
    side is NaN. *)
Definition comparedTo (x y : t) : option Z :=
  match x, y with
  | NaN, _ | _, NaN => None
  | Infinity xs, Infinity ys =>
      Some (if xs then (if ys then 0 else -1) else (if ys then 1 else 0))
  | Infinity xs, Decimal _ _ => Some (if xs then -1 else 1)
  | Decimal _ _, Infinity ys => Some (if ys then 1 else -1)
  | Decimal c1 e1, Decimal c2 e2 =>
      Some (number_of_comparison (c1 * pow10 e2 ?= c2 * pow10 e1))
  end.

(** [x.isEqualTo(y)] is [compare(x, y) === 0]. *)
Definition isEqualTo (x y : t) : bool :=
  match comparedTo x y with
  | Some 0 => true
  | _ => false
  end.

Section Config.
(** The library's [DECIMAL_PLACES] setting: the number of decimal places a
    quotient is rounded to.  bignumber.js ships with 20 and [@0x/utils]
    configures 78; the setting is not part of this module, so it is a
    parameter here. *)
Variable DECIMAL_PLACES : N.

(** [x.div(y)]: the quotient rounded to [DECIMAL_PLACES] decimal places with
    ROUND_HALF_UP; NaN for 0/0 and Infinity/Infinity, a signed infinity for a
    non-zero value over zero. *)
Definition div (x y : t) : t :=
  match x, y with
  | NaN, _ | _, NaN => NaN
  | Infinity _, Infinity _ => NaN
  | Infinity xs, Decimal c _ => Infinity (xorb xs (c <? 0))
  | Decimal _ _, Infinity _ => Decimal 0 0
  | Decimal c1 e1, Decimal c2 e2 =>
      if c2 =? 0 then
        if c1 =? 0 then NaN else Infinity (c1 <? 0)
      else
        Decimal (round_half_up (c1 * pow10 (e2 + DECIMAL_PLACES)) (c2 * pow10 e1))
                DECIMAL_PLACES
  end.
End Config.

End BigNumber.

(** ** Data model *)

(** [Signature] of [@0x/protocol-utils].  [signatureType] and [v] are
    JavaScript numbers holding integers. *)
Record Signature : Type := mkSignature {
  signatureType : Z;
  r : string;
  s : string;
  v : Z
}.

(** [SignedLimitOrder].  The amounts, the salt and the expiry are
    integer-valued BigNumbers ([deserializeOrder] builds them from the decimal
    strings of the entity), so they are kept as integers and turned into
    BigNumbers where the code calls a BigNumber method on them. *)
Record SignedLimitOrder : Type := mkSignedLimitOrder {
  signature : Signature;
  sender : string;
  maker : string;
  taker : string;
  takerTokenFeeAmount : Z;
  makerAmount : Z;
  takerAmount : Z;
  makerToken : string;
  takerToken : string;
  salt : Z;
  verifyingContract : string;
  feeRecipient : string;
  expiry : Z;
  chainId : Z;
  pool : string
}.

(** ** The comparators *)
Section Comparator.
Variable DECIMAL_PLACES : N.

Definition compareOrderByFeeRatio (orderA orderB : SignedLimitOrder) : option Z :=
  let orderAFeePrice :=
    BigNumber.div DECIMAL_PLACES
      (BigNumber.of_Z (takerTokenFeeAmount orderA)) (BigNumber.of_Z (takerAmount orderA)) in
  let orderBFeePrice :=
    BigNumber.div DECIMAL_PLACES
      (BigNumber.of_Z (takerTokenFeeAmount orderB)) (BigNumber.of_Z (takerAmount orderB)) in
  if negb (BigNumber.isEqualTo orderAFeePrice orderBFeePrice) then
    BigNumber.comparedTo orderBFeePrice orderAFeePrice
  else
    BigNumber.comparedTo (BigNumber.of_Z (expiry orderA)) (BigNumber.of_Z (expiry orderB)).

Definition compareAskOrder (orderA orderB : SignedLimitOrder) : option Z :=
  let orderAPrice :=
    BigNumber.div DECIMAL_PLACES
      (BigNumber.of_Z (takerAmount orderA)) (BigNumber.of_Z (makerAmount orderA)) in
  let orderBPrice :=
    BigNumber.div DECIMAL_PLACES
      (BigNumber.of_Z (takerAmount orderB)) (BigNumber.of_Z (makerAmount orderB)) in
  if negb (BigNumber.isEqualTo orderAPrice orderBPrice) then
    BigNumber.comparedTo orderAPrice orderBPrice
  else
    compareOrderByFeeRatio orderA orderB.

Definition compareBidOrder (orderA orderB : SignedLimitOrder) : option Z :=
  let orderAPrice :=
    BigNumber.div DECIMAL_PLACES
      (BigNumber.of_Z (makerAmount orderA)) (BigNumber.of_Z (takerAmount orderA)) in
  let orderBPrice :=
    BigNumber.div DECIMAL_PLACES
      (BigNumber.of_Z (makerAmount orderB)) (BigNumber.of_Z (takerAmount orderB)) in
  if negb (BigNumber.isEqualTo orderAPrice orderBPrice) then
    BigNumber.comparedTo orderBPrice orderAPrice
  else
    compareOrderByFeeRatio orderA orderB.

(** The three sort keys as the comparators see them: each ratio in units of
    [10 ^ -DECIMAL_PLACES], after the rounding of [div]. *)
Definition rounded_ratio (numerator denominator : Z) : Z :=
  BigNumber.round_half_up (numerator * BigNumber.pow10 DECIMAL_PLACES) denominator.

Definition askPrice (o : SignedLimitOrder) : Z := rounded_ratio (takerAmount o) (makerAmount o).
Definition bidPrice (o : SignedLimitOrder) : Z := rounded_ratio (makerAmount o) (takerAmount o).
Definition feePrice (o : SignedLimitOrder) : Z :=
  rounded_ratio (takerTokenFeeAmount o) (takerAmount o).
End Comparator.

(** An order with the given amounts and expiry; the other fields play no part
    in the ranking. *)
Definition order_of_amounts (makerAmt takerAmt feeAmt exp : Z) : SignedLimitOrder :=
  {| signature := mkSignature 2 "" "" 27;
     sender := ""; maker := ""; taker := "";
     takerTokenFeeAmount := feeAmt; makerAmount := makerAmt; takerAmount := takerAmt;
     makerToken := ""; takerToken := ""; salt := 0;
     verifyingContract := ""; feeRecipient := "";
     expiry := exp; chainId := 1; pool := "" |}.

(** An order of the given maker; the classifier looks at no other field. *)
Definition order_of_maker (makerAddress : string) : SignedLimitOrder :=
  {| signature := mkSignature 2 "" "" 27;
     sender := ""; maker := makerAddress; taker := "";
     takerTokenFeeAmount := 0; makerAmount := 1; takerAmount := 1;
     makerToken := ""; takerToken := ""; salt := 0;
     verifyingContract := ""; feeRecipient := "";
     expiry := 0; chainId := 1; pool := "" |}.

(** ** Sorting with a comparator

    The comparators are passed to [Array.prototype.sort], which is a stable
    comparison sort reading a result [<= 0] as "keep [a] before [b]" and
    [null] as 0.  A stable insertion sort stands for it. *)
Section Sorting.
Variable compare : SignedLimitOrder -> SignedLimitOrder -> option Z.

Definition keeps_before (a b : SignedLimitOrder) : bool :=
  match compare a b with
  | Some c => c <=? 0
  | None => true
  end.

Fixpoint insert_order (x : SignedLimitOrder) (l : list SignedLimitOrder)
  : list SignedLimitOrder :=
  match l with
  | [] => [x]
  | y :: l' => if keeps_before x y then x :: y :: l' else y :: insert_order x l'
  end.

Fixpoint sort_orders (l : list SignedLimitOrder) : list SignedLimitOrder :=
  match l with
  | [] => []
  | x :: l' => insert_order x (sort_orders l')
  end.

(** Each element is kept before its successor. *)
Fixpoint ranked (l : list SignedLimitOrder) : Prop :=
  match l with
  | x :: ((y :: _) as rest) => keeps_before x y = true /\ ranked rest
  | _ => True
  end.
End Sorting.

(** ** JavaScript numbers *)

(** A JavaScript number: an IEEE 754 binary64 value. *)
Definition Number : Type := spec_float.

(** The number nearest to an integer: what [toNumber] gives for an
    integer-valued BigNumber, and the exact value of an integer below
    [2 ^ 53] such as a reading of [Date.now()]. *)
Definition Number_of_Z (n : Z) : Number := binary_normalize 53 1024 n 0 false.

(** [isFinite] on a number, as [_.isFinite] of lodash applies it: neither
    NaN nor an infinity. *)
Definition isFinite (x : Number) : bool :=
  match x with
  | S754_zero _ | S754_finite _ _ _ => true
  | S754_infinity _ | S754_nan => false
  end.

(** ** The signature wire format *)

Definition is_digit (c : ascii) : bool :=
  ((48 <=? nat_of_ascii c) && (nat_of_ascii c <=? 57))%nat.

Definition digit_value (c : ascii) : Z := Z.of_nat (nat_of_ascii c) - 48.

Definition digit_char (d : Z) : ascii := ascii_of_nat (Z.to_nat (48 + d)).

(** Decimal digits of a non-negative integer, most significant first, put in
    front of [acc]. *)
Fixpoint digits_onto (fuel : nat) (n : Z) (acc : string) : string :=
  match fuel with
  | O => acc
  | S fuel' =>
      let acc' := String (digit_char (n mod 10)) acc in
      if n / 10 =? 0 then acc' else digits_onto fuel' (n / 10) acc'
  end.

Definition decimal_digits (n : Z) : string :=
  digits_onto (S (Z.to_nat (Z.log2 n))) n "".

Fixpoint strip_trailing_zeros (digits : string) : string :=
  match digits with
  | EmptyString => EmptyString
  | String c rest =>
      match strip_trailing_zeros rest with
      | EmptyString => if Ascii.eqb c "0" then EmptyString else String c EmptyString
      | kept => String c kept
      end
  end.

(** [Number::toString] on an integer-valued number, which is what [join]
    applies to [signatureType] and [v]: plain decimal notation below
    [10 ^ 21], exponential notation from there on ([1e+21]).  Numbers are
    kept as the integers they hold.  Beyond [2 ^ 53] an engine prints the
    shortest digits that identify the double (padded with zeros below
    [10 ^ 21], where they read back as the same number); the exact digits
    used here agree with them whenever the integer is a short decimal times a
    power of ten. *)
Definition Number_toString (n : Z) : string :=
  let sign := if n <? 0 then "-" else "" in
  let digits := decimal_digits (Z.abs n) in
  if Z.abs n <? 10 ^ 21 then
    sign +:+ digits
  else
    let significand := strip_trailing_zeros digits in
    let exponent := decimal_digits (Z.of_nat (String.length digits) - 1) in
    match significand with
    | EmptyString => sign +:+ digits
    | String d EmptyString => sign +:+ String d ("e+" +:+ exponent)
    | String d more => sign +:+ String d ("." +:+ more +:+ "e+" +:+ exponent)
    end.

(** [[signatureType, r, s, v].join(',')]. *)
Definition serializeSignature (signature : Signature) : string :=
  Number_toString (signatureType signature) +:+ "," +:+ r signature +:+ ","
    +:+ s signature +:+ "," +:+ Number_toString (v signature).

(** [str.split(',')]: the pieces between the commas; never an empty array. *)
Fixpoint split_comma (str : string) : list string :=
  match str with
  | EmptyString => [EmptyString]
  | String c rest =>
      if Ascii.eqb c "," then EmptyString :: split_comma rest
      else match split_comma rest with
           | piece :: pieces => String c piece :: pieces
           | [] => [String c EmptyString]
           end
  end.

(** White space that [parseInt] skips, among the code units below 256. *)
Definition is_white_space (c : ascii) : bool :=
  let n := nat_of_ascii c in
  ((n =? 9) || (n =? 10) || (n =? 11) || (n =? 12) || (n =? 13) || (n =? 32) || (n =? 160))%nat.

Fixpoint skip_white_space (str : string) : string :=
  match str with
  | String c rest => if is_white_space c then skip_white_space rest else str
  | EmptyString => EmptyString
  end.

(** The value of the longest prefix of decimal digits, if there is a digit. *)
Fixpoint scan_digits (str : string) (acc : option Z) : option Z :=
  match str with
  | String c rest =>
      if is_digit c then
        scan_digits rest (Some (10 * match acc with Some a => a | None => 0 end + digit_value c))
      else acc
  | EmptyString => acc
  end.

(** [parseInt(str, 10)], as the integer that the digits spell; [None] is NaN.
    The engine returns the number nearest to that integer,
    [Number_of_Z n]: the integer itself when it is a binary64 value (every
    integer up to [2 ^ 53] is one), and an infinity when it is too large to
    be rounded to one. *)
Definition parseInt (str : string) : option Z :=
  match skip_white_space str with
  | String "-" rest => option_map Z.opp (scan_digits rest None)
  | String "+" rest => scan_digits rest None
  | trimmed => scan_digits trimmed None
  end.

(** A destructured array element: a missing one is [undefined], which
    [parseInt] reads through its string form. *)
Definition parseInt_element (element : option string) : option Z :=
  match element with
  | Some str => parseInt str
  | None => parseInt "undefined"
  end.

(** [assert.isNumber(name, value)] of [@0x/assert] on what [parseInt]
    returned: its test is [_.isFinite], so NaN, [Infinity] and [-Infinity]
    throw ([None]) and a finite number passes. *)
Definition assert_isNumber (value : option Z) : option Z :=
  match value with
  | Some n => if isFinite (Number_of_Z n) then Some n else None
  | None => None
  end.

(** [deserializeSignature]; [None] when one of the four assertions throws
    ([assert.isNumber] rejects NaN and the infinities, [assert.isString]
    rejects [undefined]).  The two numbers of the signature are kept as the
    integers read, which are the numbers themselves whenever those integers
    are binary64 values. *)
Definition deserializeSignature (signatureStr : string) : option Signature :=
  let fields := split_comma signatureStr in
  let signatureTypeStr := nth_error fields 0 in
  let r := nth_error fields 1 in
  let s := nth_error fields 2 in
  let vStr := nth_error fields 3 in
  match assert_isNumber (parseInt_element signatureTypeStr),
        assert_isNumber (parseInt_element vStr), r, s with
  | Some signatureType, Some v, Some r, Some s =>
      Some {| signatureType := signatureType; r := r; s := s; v := v |}
  | _, _, _, _ => None
  end.

Fixpoint contains_comma (str : string) : bool :=
  match str with
  | EmptyString => false
  | String c rest => Ascii.eqb c "," || contains_comma rest
  end.

Fixpoint count_commas (str : string) : nat :=
  match str with
  | EmptyString => O
  | String c rest => if Ascii.eqb c "," then S (count_commas rest) else count_commas rest
  end.

(** ** The pinning classifier *)

(** [RawPool]: one row of the staking-pools query. *)
Record RawPool : Type := mkRawPool {
  pool_id : string;
  maker_addresses : list string
}.

Record PinResult : Type := mkPinResult {
  pin : list SignedLimitOrder;
  doNotPin : list SignedLimitOrder
}.

(** How a call ends: with a value or with a thrown error (a rejected
    promise), the error kept as its message. *)
Inductive Completion (A : Type) : Type :=
| Returned (value : A)
| Threw (error : string).
Arguments Returned {A} value.
Arguments Threw {A} error.

(** What the staking-pools query resolves to: its rows, or a falsy value
    ([None]) that [|| []] replaces by no rows. *)
Definition Rows : Type := option (list RawPool).

(** A database connection, as far as this module uses it: what
    [connection.query(queries.stakingPoolsQuery)] settles to when issued at a
    given time. *)
Record Connection : Type := mkConnection {
  query : Z -> Completion Rows
}.

(** Modelled from the spec: the cache entry of [./result_cache], "the last
    successfully fetched pool-stats set plus the timestamp of that fetch". *)
Record TimestampedResult : Type := mkTimestampedResult {
  timestamp : Z;
  result : Rows
}.

(** Modelled from the spec: the state of a result cache of [./result_cache]:
    the fetch it was created with (here the connection its closure
    captured), its expiry and the cached entry. *)
Record ResultCache : Type := mkResultCache {
  fn : Connection;
  cacheExpiryMs : Z;
  entry : option TimestampedResult
}.

(** Everything the classifier reads or changes outside its arguments: the
    clock ([Date.now()], milliseconds), the module-level [PIN_CACHE], the
    number of staking-pools queries issued so far and the warnings logged. *)
Record World : Type := mkWorld {
  now : Z;
  PIN_CACHE : option ResultCache;
  queryCount : nat;
  warnings : list string
}.

(** Computations over the world that may throw. *)
Definition M (A : Type) : Type := World -> Completion A * World.

Definition ret {A : Type} (a : A) : M A := fun w => (Returned a, w).

Definition bind {A B : Type} (m : M A) (k : A -> M B) : M B :=
  fun w =>
    match m w with
    | (Returned a, w') => k a w'
    | (Threw error, w') => (Threw error, w')
    end.

Definition try_catch {A : Type} (body : M A) (handler : string -> M A) : M A :=
  fun w =>
    match body w with
    | (Returned a, w') => (Returned a, w')
    | (Threw error, w') => handler error w'
    end.

Declare Scope world_scope.
Delimit Scope world_scope with world.
Notation "x <- m ;; k" := (bind m (fun x => k))
  (at level 100, m at next level, right associativity) : world_scope.
Notation "m ;;; k" := (bind m (fun _ => k))
  (at level 100, right associativity) : world_scope.

Definition Date_now : M Z := fun w => (Returned (now w), w).

Definition get_PIN_CACHE : M (option ResultCache) := fun w => (Returned (PIN_CACHE w), w).

Definition set_PIN_CACHE (cache : ResultCache) : M unit :=
  fun w =>
    (Returned tt,
     {| now := now w; PIN_CACHE := Some cache;
        queryCount := queryCount w; warnings := warnings w |}).

(** [connection.query(queries.stakingPoolsQuery)]. *)
Definition connection_query (connection : Connection) : M Rows :=
  fun w =>
    (query connection (now w),
     {| now := now w; PIN_CACHE := PIN_CACHE w;
        queryCount := S (queryCount w); warnings := warnings w |}).

(** [logger.warn(message)]. *)
Definition logger_warn (message : string) : M unit :=
  fun w =>
    (Returned tt,
     {| now := now w; PIN_CACHE := PIN_CACHE w;
        queryCount := queryCount w; warnings := warnings w ++ [message] |}).

(** Modelled from the spec: the constant [TEN_MINUTES_MS] of [../constants],
    the refresh interval "fixed at 10 minutes", in the milliseconds of
    [Date.now()]. *)
Definition TEN_MINUTES_MS : Z := 10 * 60 * 1000.

(** Modelled from the spec: [createResultCache] of [./result_cache], which is
    not among the sources.  The cache starts without an entry. *)
Definition createResultCache (fetch : Connection) (expiryMs : Z) : ResultCache :=
  {| fn := fetch; cacheExpiryMs := expiryMs; entry := None |}.

(** Modelled from the spec: [getResultAsync] of the result cache.  "If no
    cached entry exists, or the cached entry's age exceeds the refresh
    interval, attempt a fresh fetch.  On fetch success: replace the cached
    entry's value and reset its timestamp to now; use the new value for this
    call.  On fetch failure: [...] do not clear or corrupt any previously
    cached valid entry": the error reaches the caller and the cache is left
    as it was.  The updated cache is returned next to the result. *)
Definition getResultAsync (cache : ResultCache) : M (ResultCache * TimestampedResult) :=
  let refresh : M (ResultCache * TimestampedResult) :=
    (fetched <- connection_query (fn cache) ;;
     time <- Date_now ;;
     let fresh := {| timestamp := time; result := fetched |} in
     ret ({| fn := fn cache; cacheExpiryMs := cacheExpiryMs cache; entry := Some fresh |},
          fresh))%world in
  (time <- Date_now ;;
   match entry cache with
   | None => refresh
   | Some cached =>
       if cacheExpiryMs cache <? time - timestamp cached then refresh
       else ret (cache, cached)
   end)%world.

(** [getPoolsAsync]: the cache is created on the first call, around the
    connection of that call, and kept in [PIN_CACHE]. *)
Definition getPoolsAsync (connection : Connection) : M Rows :=
  (existing <- get_PIN_CACHE ;;
   cache <- match existing with
            | Some cache => ret cache
            | None =>
                let created := createResultCache connection TEN_MINUTES_MS in
                (set_PIN_CACHE created ;;; ret created)
            end ;;
   answer <- getResultAsync cache ;;
   set_PIN_CACHE (fst answer) ;;;
   ret (result (snd answer)))%world.

(** [array.includes(x)] on strings: equality of the strings as they are. *)
Definition includes (array : list string) (x : string) : bool :=
  existsb (String.eqb x) array.

(** Whether an order is pinned, given the addresses collected. *)
Definition pinned_by (makerAddresses : list string) (o : SignedLimitOrder) : bool :=
  includes makerAddresses (maker o).

Section Classifier.
(** The configuration the classifier reads from [../config]. *)
Variable PINNED_MM_ADDRESSES : list string.
Variable PINNED_POOL_IDS : list string.

(** The maker addresses collected by the [currentPools.forEach] loop. *)
Definition collect_makerAddresses (currentPools : list RawPool) : list string :=
  fold_left
    (fun makerAddresses poolStats =>
       if negb (includes PINNED_POOL_IDS (pool_id poolStats)) then makerAddresses
       else makerAddresses ++ maker_addresses poolStats)
    currentPools PINNED_MM_ADDRESSES.

(** The [signedOrders.forEach] loop, pushing onto [pin] or [doNotPin]. *)
Definition push_orders (makerAddresses : list string) (signedOrders : list SignedLimitOrder)
  : PinResult :=
  fold_left
    (fun pinResult signedOrder =>
       if includes makerAddresses (maker signedOrder) then
         {| pin := pin pinResult ++ [signedOrder]; doNotPin := doNotPin pinResult |}
       else
         {| pin := pin pinResult; doNotPin := doNotPin pinResult ++ [signedOrder] |})
    signedOrders {| pin := []; doNotPin := [] |}.

Definition splitOrdersByPinningAsync (connection : Connection)
  (signedOrders : list SignedLimitOrder) : M PinResult :=
  (currentPools <-
     try_catch
       (rows <- getPoolsAsync connection ;;
        ret (match rows with Some pools => pools | None => [] end))
       (fun error =>
          logger_warn ("stakingPoolsQuery threw an error: " +:+ error) ;;;
          ret []) ;;
   let makerAddresses := collect_makerAddresses currentPools in
   ret (push_orders makerAddresses signedOrders))%world.

(** The pools a call of the classifier works with: what [getPoolsAsync]
    hands over in that world, and none when it throws or has no rows. *)
Definition pools_in_use (connection : Connection) (w : World) : list RawPool :=
  match fst (getPoolsAsync connection w) with
  | Returned (Some pools) => pools
  | _ => []
  end.
End Classifier.

(** The world a call of the classifier leaves behind. *)
Definition world_after (connection : Connection) (w : World) : World :=
  match getPoolsAsync connection w with
  | (Returned _, w') => w'
  | (Threw error, w') =>
      snd (logger_warn ("stakingPoolsQuery threw an error: " +:+ error) w')
  end.

(** The cache a call works with: the one in [PIN_CACHE], or the one the call
    creates around its own connection. *)
Definition cache_in_use (connection : Connection) (w : World) : ResultCache :=
  match PIN_CACHE w with
  | Some cache => cache
  | None => createResultCache connection TEN_MINUTES_MS
  end.

(** What a fetch through that cache does to the world and returns. *)
Definition fetch_through (cache : ResultCache) (w : World) : Completion Rows * World :=
  match query (fn cache) (now w) with
  | Returned rows =>
      (Returned rows,
       {| now := now w;
          PIN_CACHE := Some {| fn := fn cache; cacheExpiryMs := cacheExpiryMs cache;
                               entry := Some {| timestamp := now w; result := rows |} |};
          queryCount := S (queryCount w); warnings := warnings w |})
  | Threw error =>
      (Threw error,
       {| now := now w; PIN_CACHE := Some cache;
          queryCount := S (queryCount w); warnings := warnings w |})
  end.

(** The entry of the pin cache, if the cache exists and holds one. *)
Definition cached_entry (w : World) : option TimestampedResult :=
  match PIN_CACHE w with
  | Some cache => entry cache
  | None => None
  end.

(** Whether a call in this world has to go to the database. *)
Definition fetch_due (w : World) : bool :=
  match cached_entry w with
  | None => true
  | Some cached => TEN_MINUTES_MS <? now w - timestamp cached
  end.

(** Every cache the module creates expires after [TEN_MINUTES_MS]. *)
Definition cache_as_created (w : World) : Prop :=
  forall cache, PIN_CACHE w = Some cache -> cacheExpiryMs cache = TEN_MINUTES_MS.

(** The same world at a later (or any) time. *)
Definition at_time (t : Z) (w : World) : World :=
  {| now := t; PIN_CACHE := PIN_CACHE w; queryCount := queryCount w; warnings := warnings w |}.

(** The world of a freshly started process. *)
Definition initial_world (t : Z) : World :=
  {| now := t; PIN_CACHE := None; queryCount := 0; warnings := [] |}.

(** ** Orders with their metadata *)

(** [SRAOrderMetaData].  [state] is an [OrderEventEndState], a string enum of
    [@0x/mesh-graphql-client], and may be missing, as may [createdAt]. *)
Record SRAOrderMetaData : Type := mkSRAOrderMetaData {
  orderHash : string;
  remainingFillableTakerAssetAmount : Z;
  state : option string;
  createdAt : option string
}.

Record SRAOrder : Type := mkSRAOrder {
  order : SignedLimitOrder;
  metaData : SRAOrderMetaData
}.

(** ** Ignored addresses *)

(** [toLowerCase] on one code unit below 256: the letters A-Z and the
    Latin-1 capitals (all of 192-222 but the multiplication sign) move up by
    32, everything else stays. *)
Definition toLowerCase_char (c : ascii) : ascii :=
  let n := nat_of_ascii c in
  if (((65 <=? n) && (n <=? 90)) || ((192 <=? n) && (n <=? 214))
      || ((216 <=? n) && (n <=? 222)))%nat
  then ascii_of_nat (n + 32)
  else c.

Fixpoint toLowerCase (str : string) : string :=
  match str with
  | EmptyString => EmptyString
  | String c rest => String (toLowerCase_char c) (toLowerCase rest)
  end.

Definition isIgnoredOrder (addressesToIgnore : list string) (apiOrder : SRAOrder) : bool :=
  existsb
    (fun addressToIgnore =>
       let maker := maker (order apiOrder) in
       let makerToken := makerToken (order apiOrder) in
       let takerToken := takerToken (order apiOrder) in
       includes [toLowerCase maker; toLowerCase makerToken; toLowerCase takerToken]
         (toLowerCase addressToIgnore))
    addressesToIgnore.

(** The lower-cased addresses an order is matched on. *)
Definition matched_addresses (apiOrder : SRAOrder) : list string :=
  [toLowerCase (maker (order apiOrder));
   toLowerCase (makerToken (order apiOrder));
   toLowerCase (takerToken (order apiOrder))].

(** ** Freshness *)

Section Freshness.
(** [ONE_SECOND_MS] of [../constants], a number. *)
Variable ONE_SECOND_MS : Number.

Definition isFreshOrder (apiOrder : SRAOrder) (expirationBufferSeconds : Number) : M bool :=
  (time <- Date_now ;;
   let dateNowSeconds := SFdiv 53 1024 (Number_of_Z time) ONE_SECOND_MS in
   ret (SFltb (SFadd 53 1024 dateNowSeconds expirationBufferSeconds)
              (Number_of_Z (expiry (order apiOrder)))))%world.

Record Freshness : Type := mkFreshness {
  fresh : list SRAOrder;
  expired : list SRAOrder
}.

(** The [for ... of] loop of [groupByFreshness] over the rest of the
    orders. *)
Fixpoint groupByFreshness_from (accumulator : Freshness) (apiOrders : list SRAOrder)
  (expirationBufferSeconds : Number) : M Freshness :=
  match apiOrders with
  | [] => ret accumulator
  | apiOrder :: rest =>
      (isFresh <- isFreshOrder apiOrder expirationBufferSeconds ;;
       groupByFreshness_from
         (if isFresh
          then {| fresh := fresh accumulator ++ [apiOrder]; expired := expired accumulator |}
          else {| fresh := fresh accumulator; expired := expired accumulator ++ [apiOrder] |})
         rest expirationBufferSeconds)%world
  end.

Definition groupByFreshness (apiOrders : list SRAOrder) (expirationBufferSeconds : Number)
  : M Freshness :=
  groupByFreshness_from {| fresh := []; expired := [] |} apiOrders expirationBufferSeconds.

(** The test [isFreshOrder] makes when the clock reads [time]. *)
Definition fresh_at (time : Z) (expirationBufferSeconds : Number) (apiOrder : SRAOrder)
  : bool :=
  SFltb
    (SFadd 53 1024 (SFdiv 53 1024 (Number_of_Z time) ONE_SECOND_MS) expirationBufferSeconds)
    (Number_of_Z (expiry (order apiOrder))).
End Freshness.

(** ** Orders as stored entities *)

(** [SignedOrderV4Entity] of [../entities]: the columns the constructor is
    given, every one a string. *)
Module SignedOrderV4Entity.
Record t : Type := mk {
  signature : string;
  sender : string;
  maker : string;
  taker : string;
  makerAmount : string;
  takerAmount : string;
  makerToken : string;
  takerToken : string;
  takerTokenFeeAmount : string;
  salt : string;
  verifyingContract : string;
  feeRecipient : string;
  pool : string;
  expiry : string;
  hash : string;
  remainingFillableTakerAssetAmount : string
}.
End SignedOrderV4Entity.

(** [PersistentSignedOrderV4Entity] of [../entities]: the same columns, the
    state of the order and, once the row is stored, its creation time. *)
Module PersistentSignedOrderV4Entity.
Record t : Type := mk {
  columns : SignedOrderV4Entity.t;
  orderState : option string;
  createdAt : option string
}.
End PersistentSignedOrderV4Entity.

(** The two shapes [deserializeOrder] and [deserializeOrderToSRAOrder]
    accept. *)
Inductive OrderEntity : Type :=
| Plain (entity : SignedOrderV4Entity.t)
| Persistent (entity : PersistentSignedOrderV4Entity.t).

Definition columns_of (signedOrderEntity : OrderEntity) : SignedOrderV4Entity.t :=
  match signedOrderEntity with
  | Plain entity => entity
  | Persistent entity => PersistentSignedOrderV4Entity.columns entity
  end.

(** [value || fallback] on an optional string: a missing and an empty string
    are both falsy. *)
Definition or_else (value : option string) (fallback : string) : string :=
  match value with
  | Some (String c rest) => String c rest
  | _ => fallback
  end.

(** [OrderEventEndState.Added] of [@0x/mesh-graphql-client]. *)
Definition OrderEventEndState_Added : string := "ADDED".

Section Entities.
(** [CHAIN_ID] of [../config]. *)
Variable CHAIN_ID : Z.
(** The two directions between an integer-valued BigNumber and a string:
    [x.toString()] and [new BigNumber(str)] of bignumber.js, the latter on the
    strings of the entity, which hold integers. *)
Variable BigNumber_toString : Z -> string.
Variable BigNumber_new : string -> Z.

Definition deserializeOrder (signedOrderEntity : OrderEntity) : option SignedLimitOrder :=
  let columns := columns_of signedOrderEntity in
  match deserializeSignature (SignedOrderV4Entity.signature columns) with
  | None => None
  | Some signature =>
      Some {| signature := signature;
              sender := SignedOrderV4Entity.sender columns;
              maker := SignedOrderV4Entity.maker columns;
              taker := SignedOrderV4Entity.taker columns;
              takerTokenFeeAmount :=
                BigNumber_new (SignedOrderV4Entity.takerTokenFeeAmount columns);
              makerAmount := BigNumber_new (SignedOrderV4Entity.makerAmount columns);
              takerAmount := BigNumber_new (SignedOrderV4Entity.takerAmount columns);
              makerToken := SignedOrderV4Entity.makerToken columns;
              takerToken := SignedOrderV4Entity.takerToken columns;
              salt := BigNumber_new (SignedOrderV4Entity.salt columns);
              verifyingContract := SignedOrderV4Entity.verifyingContract columns;
              feeRecipient := SignedOrderV4Entity.feeRecipient columns;
              expiry := BigNumber_new (SignedOrderV4Entity.expiry columns);
              chainId := CHAIN_ID;
              pool := SignedOrderV4Entity.pool columns |}
  end.

Definition deserializeOrderToSRAOrder (signedOrderEntity : OrderEntity) : option SRAOrder :=
  match deserializeOrder signedOrderEntity with
  | None => None
  | Some order =>
      let state :=
        match signedOrderEntity with
        | Plain _ => None
        | Persistent entity => PersistentSignedOrderV4Entity.orderState entity
        end in
      let createdAt :=
        match signedOrderEntity with
        | Plain _ => None
        | Persistent entity => PersistentSignedOrderV4Entity.createdAt entity
        end in
      let metaData :=
        {| orderHash := SignedOrderV4Entity.hash (columns_of signedOrderEntity);
           remainingFillableTakerAssetAmount :=
             BigNumber_new
               (SignedOrderV4Entity.remainingFillableTakerAssetAmount
                  (columns_of signedOrderEntity));
           state := state;
           createdAt := createdAt |} in
      Some {| order := order; metaData := metaData |}
  end.

Definition serializeOrder (apiOrder : SRAOrder) : SignedOrderV4Entity.t :=
  let signedOrder := order apiOrder in
  {| SignedOrderV4Entity.signature := serializeSignature (signature signedOrder);
     SignedOrderV4Entity.sender := sender signedOrder;
     SignedOrderV4Entity.maker := maker signedOrder;
     SignedOrderV4Entity.taker := taker signedOrder;
     SignedOrderV4Entity.makerAmount := BigNumber_toString (makerAmount signedOrder);
     SignedOrderV4Entity.takerAmount := BigNumber_toString (takerAmount signedOrder);
     SignedOrderV4Entity.makerToken := makerToken signedOrder;
     SignedOrderV4Entity.takerToken := takerToken signedOrder;
     SignedOrderV4Entity.takerTokenFeeAmount :=
       BigNumber_toString (takerTokenFeeAmount signedOrder);
     SignedOrderV4Entity.salt := BigNumber_toString (salt signedOrder);
     SignedOrderV4Entity.verifyingContract := verifyingContract signedOrder;
     SignedOrderV4Entity.feeRecipient := feeRecipient signedOrder;
     SignedOrderV4Entity.pool := pool signedOrder;
     SignedOrderV4Entity.expiry := BigNumber_toString (expiry signedOrder);
     SignedOrderV4Entity.hash := orderHash (metaData apiOrder);
     SignedOrderV4Entity.remainingFillableTakerAssetAmount :=
       BigNumber_toString (remainingFillableTakerAssetAmount (metaData apiOrder)) |}.

Definition serializePersistentOrder (apiOrder : SRAOrder) : PersistentSignedOrderV4Entity.t :=
  let signedOrder := order apiOrder in
  {| PersistentSignedOrderV4Entity.columns :=
       {| SignedOrderV4Entity.signature := serializeSignature (signature signedOrder);
          SignedOrderV4Entity.sender := sender signedOrder;
          SignedOrderV4Entity.maker := maker signedOrder;
          SignedOrderV4Entity.taker := taker signedOrder;
          SignedOrderV4Entity.makerAmount := BigNumber_toString (makerAmount signedOrder);
          SignedOrderV4Entity.takerAmount := BigNumber_toString (takerAmount signedOrder);
          SignedOrderV4Entity.makerToken := makerToken signedOrder;
          SignedOrderV4Entity.takerToken := takerToken signedOrder;
          SignedOrderV4Entity.takerTokenFeeAmount :=
            BigNumber_toString (takerTokenFeeAmount signedOrder);
          SignedOrderV4Entity.salt := BigNumber_toString (salt signedOrder);
          SignedOrderV4Entity.verifyingContract := verifyingContract signedOrder;
          SignedOrderV4Entity.feeRecipient := feeRecipient signedOrder;
          SignedOrderV4Entity.pool := pool signedOrder;
          SignedOrderV4Entity.expiry := BigNumber_toString (expiry signedOrder);
          SignedOrderV4Entity.hash := orderHash (metaData apiOrder);
          SignedOrderV4Entity.remainingFillableTakerAssetAmount :=
            BigNumber_toString (remainingFillableTakerAssetAmount (metaData apiOrder)) |};
     PersistentSignedOrderV4Entity.orderState :=
       Some (or_else (state (metaData apiOrder)) OrderEventEndState_Added);
     PersistentSignedOrderV4Entity.createdAt := None |}.
End Entities.

(** A signature that survives the wire format: no comma in [r] and [s], the
    two numbers below [10 ^ 21] in magnitude. *)
Definition plain_signature (sig : Signature) : Prop :=
  Z.abs (signatureType sig) < 10 ^ 21 /\ Z.abs (v sig) < 10 ^ 21 /\
  contains_comma (r sig) = false /\ contains_comma (s sig) = false.

(** Decimal notation for every integer, and its reading: one pair of
    functions with the round trip asked of [toString] and [new BigNumber]. *)
Definition decimal_of_Z (n : Z) : string :=
  (if n <? 0 then "-" else "") +:+ decimal_digits (Z.abs n).

Definition Z_of_decimal (str : string) : Z :=
  match parseInt str with
  | Some n => n
  | None => 0
  end.

(** An order with metadata, for examples. *)
Definition stored_example : SRAOrder :=
  {| order := order_of_amounts 100 90 1 1700000000;
     metaData := {| orderHash := "0xhash"; remainingFillableTakerAssetAmount := 45;
                    state := None; createdAt := Some "2021-03-01" |} |}.

(** ** The order configuration *)

Module OrderConfigResponse.
Record t : Type := mk {
  sender : string;
  feeRecipient : string;
  takerTokenFeeAmount : Z
}.
End OrderConfigResponse.

Section OrderConfig.
(** [NULL_ADDRESS] of [../constants]; [FEE_RECIPIENT_ADDRESS] and
    [TAKER_FEE_UNIT_AMOUNT] of [../config]. *)
Variable NULL_ADDRESS : string.
Variable FEE_RECIPIENT_ADDRESS : string.
Variable TAKER_FEE_UNIT_AMOUNT : Z.
(** The request, [Partial<OrderConfigRequestPayload>], is not looked at, so its
    type is left open. *)
Variable OrderConfigRequestPayload : Type.

Definition getOrderConfig (_order : OrderConfigRequestPayload) : OrderConfigResponse.t :=
  {| OrderConfigResponse.sender := NULL_ADDRESS;
     OrderConfigResponse.feeRecipient := toLowerCase FEE_RECIPIENT_ADDRESS;
     OrderConfigResponse.takerTokenFeeAmount := TAKER_FEE_UNIT_AMOUNT |}.
End OrderConfig.

(** A comparison result as a number: -1, 0 or 1. *)
Definition three_way (c : Z) : Prop := c = -1 \/ c = 0 \/ c = 1.

(** ** Notions used to state the properties *)

(** The integers that binary64 rounds to an infinity: the largest finite
    number is [2 ^ 1024 - 2 ^ 971], and rounding to nearest, ties to even,
    sends everything from the midpoint [2 ^ 1024 - 2 ^ 970] between it and
    [2 ^ 1024] onwards to an infinity (the smallest such decimal has 309
    digits). *)
Definition overflows_binary64 (n : Z) : bool := 2 ^ 1024 - 2 ^ 970 <=? Z.abs n.

(** Lexicographic comparison of three integer keys. *)
Definition lexicographic (k1 k2 : Z * Z * Z) : comparison :=
  let '(a1, a2, a3) := k1 in
  let '(b1, b2, b3) := k2 in
  match a1 ?= b1 with
  | Eq => match a2 ?= b2 with
          | Eq => a3 ?= b3
          | c => c
          end
  | c => c
  end.

(** The keys by which the two comparators rank, each ascending: a key that
    the code compares with the operands swapped appears negated. *)
Definition ask_key (DECIMAL_PLACES : N) (o : SignedLimitOrder) : Z * Z * Z :=
  (askPrice DECIMAL_PLACES o, - feePrice DECIMAL_PLACES o, expiry o).

Definition bid_key (DECIMAL_PLACES : N) (o : SignedLimitOrder) : Z * Z * Z :=
  (- bidPrice DECIMAL_PLACES o, - feePrice DECIMAL_PLACES o, expiry o).

(** The quotient that [compareAskOrder] holds in [orderAPrice] and
    [orderBPrice]. *)
Definition ask_quotient (DECIMAL_PLACES : N) (o : SignedLimitOrder) : BigNumber.t :=
  BigNumber.div DECIMAL_PLACES (BigNumber.of_Z (takerAmount o)) (BigNumber.of_Z (makerAmount o)).

(** Orders the comparators are meant for: both amounts positive. *)
Definition positive_amounts (o : SignedLimitOrder) : Prop :=
  0 < makerAmount o /\ 0 < takerAmount o.

(** * Properties *)

(** ** Rounding of quotients *)

Lemma pow10_pos e : 0 < BigNumber.pow10 e.
Proof. unfold BigNumber.pow10. apply Z.pow_pos_nonneg; lia. Qed.

Lemma half_up_bounds n d :
  0 < d ->
  2 * d * ((2 * n + d) / (2 * d)) <= 2 * n + d < 2 * d * ((2 * n + d) / (2 * d)) + 2 * d.
Proof.
  intros Hd.
  pose proof (Z.div_mod (2 * n + d) (2 * d) ltac:(lia)) as Hdm.
  pose proof (Z.mod_pos_bound (2 * n + d) (2 * d) ltac:(lia)) as Hm.
  lia.
Qed.

Lemma half_up_mono n1 d1 n2 d2 :
  0 < d1 -> 0 < d2 -> n1 * d2 <= n2 * d1 ->
  (2 * n1 + d1) / (2 * d1) <= (2 * n2 + d2) / (2 * d2).
Proof.
  intros H1 H2 Hle.
  pose proof (half_up_bounds n1 d1 H1) as B1.
  pose proof (half_up_bounds n2 d2 H2) as B2.
  set (q1 := (2 * n1 + d1) / (2 * d1)) in *.
  set (q2 := (2 * n2 + d2) / (2 * d2)) in *.
  destruct (Z_le_gt_dec q1 q2) as [|Hgt]; [assumption|exfalso].
  assert (E1 : (2 * n2 + d2) * d1 < 2 * d2 * q1 * d1).
  { apply Z.mul_lt_mono_pos_r; [lia|].
    apply Z.lt_le_trans with (2 * d2 * (q2 + 1)); [lia|].
    apply Z.mul_le_mono_nonneg_l; lia. }
  assert (E2 : 2 * d1 * q1 * d2 <= (2 * n1 + d1) * d2).
  { apply Z.mul_le_mono_nonneg_r; lia. }
  lia.
Qed.

(** Two quotients at least one unit apart stay apart after rounding. *)
Lemma half_up_separated n1 d1 n2 d2 :
  0 < d1 -> 0 < d2 -> d1 * d2 <= n2 * d1 - n1 * d2 ->
  (2 * n1 + d1) / (2 * d1) < (2 * n2 + d2) / (2 * d2).
Proof.
  intros H1 H2 Hsep.
  pose proof (half_up_bounds n1 d1 H1) as B1.
  pose proof (half_up_bounds n2 d2 H2) as B2.
  set (q1 := (2 * n1 + d1) / (2 * d1)) in *.
  set (q2 := (2 * n2 + d2) / (2 * d2)) in *.
  destruct (Z_lt_ge_dec q1 q2) as [|Hge]; [assumption|exfalso].
  assert (E1 : (2 * n2 + d2) * d1 < (2 * d2 * q1 + 2 * d2) * d1).
  { apply Z.mul_lt_mono_pos_r; [lia|].
    apply Z.lt_le_trans with (2 * d2 * q2 + 2 * d2); [lia|].
    assert (d2 * q2 <= d2 * q1) by (apply Z.mul_le_mono_nonneg_l; lia). lia. }
  assert (E2 : 2 * d1 * q1 * d2 <= (2 * n1 + d1) * d2).
  { apply Z.mul_le_mono_nonneg_r; lia. }
  lia.
Qed.

Lemma round_half_up_pos_denominator n d :
  0 < d ->
  BigNumber.round_half_up n d = Z.sgn n * ((2 * Z.abs n + d) / (2 * d)).
Proof.
  intros Hd. unfold BigNumber.round_half_up.
  rewrite (Z.sgn_pos d), (Z.abs_eq d) by lia. lia.
Qed.

Lemma round_half_up_nonneg n d :
  0 <= n -> 0 < d -> BigNumber.round_half_up n d = (2 * n + d) / (2 * d).
Proof.
  intros Hn Hd. rewrite round_half_up_pos_denominator by assumption.
  destruct (Z.eq_dec n 0) as [->|Hne].
  - transitivity 0; [reflexivity | symmetry; apply Z.div_small; lia].
  - rewrite Z.sgn_pos, Z.abs_eq by lia. lia.
Qed.

Lemma round_half_up_mono n1 d1 n2 d2 :
  0 < d1 -> 0 < d2 -> n1 * d2 <= n2 * d1 ->
  BigNumber.round_half_up n1 d1 <= BigNumber.round_half_up n2 d2.
Proof.
  intros H1 H2 Hle.
  rewrite !round_half_up_pos_denominator by assumption.
  assert (P1 : 0 <= (2 * Z.abs n1 + d1) / (2 * d1)) by (apply Z.div_pos; lia).
  assert (P2 : 0 <= (2 * Z.abs n2 + d2) / (2 * d2)) by (apply Z.div_pos; lia).
  destruct (Z.lt_trichotomy n1 0) as [N1|[N1|N1]];
  destruct (Z.lt_trichotomy n2 0) as [N2|[N2|N2]];
  try (rewrite (Z.sgn_neg n1) by lia); try (rewrite (Z.sgn_pos n1) by lia);
  try (rewrite (Z.sgn_neg n2) by lia); try (rewrite (Z.sgn_pos n2) by lia);
  subst; cbn [Z.sgn]; try lia; try nia.
  - assert ((2 * Z.abs n2 + d2) / (2 * d2) <= (2 * Z.abs n1 + d1) / (2 * d1))
      by (apply half_up_mono; lia).
    lia.
  - assert ((2 * Z.abs n1 + d1) / (2 * d1) <= (2 * Z.abs n2 + d2) / (2 * d2))
      by (apply half_up_mono; lia).
    lia.
Qed.

(** Equal exact ratios have equal rounded ratios, and a lower exact ratio
    never has a higher rounded one. *)
Lemma rounded_ratio_mono dp n1 d1 n2 d2 :
  0 < d1 -> 0 < d2 -> n1 * d2 <= n2 * d1 ->
  rounded_ratio dp n1 d1 <= rounded_ratio dp n2 d2.
Proof.
  intros H1 H2 Hle. unfold rounded_ratio.
  apply round_half_up_mono; try assumption.
  pose proof (pow10_pos dp). nia.
Qed.

Lemma rounded_ratio_eq dp n1 d1 n2 d2 :
  0 < d1 -> 0 < d2 -> n1 * d2 = n2 * d1 ->
  rounded_ratio dp n1 d1 = rounded_ratio dp n2 d2.
Proof.
  intros H1 H2 Heq. apply Z.le_antisymm; apply rounded_ratio_mono; lia.
Qed.

(** Ratios of non-negative numerators that differ by at least
    [10 ^ -DECIMAL_PLACES] are told apart. *)
Lemma rounded_ratio_separated dp n1 d1 n2 d2 :
  0 <= n1 -> 0 <= n2 -> 0 < d1 -> 0 < d2 ->
  d1 * d2 <= (n2 * d1 - n1 * d2) * BigNumber.pow10 dp ->
  rounded_ratio dp n1 d1 < rounded_ratio dp n2 d2.
Proof.
  intros N1 N2 H1 H2 Hsep. unfold rounded_ratio.
  pose proof (pow10_pos dp).
  rewrite !round_half_up_nonneg by nia.
  apply half_up_separated; try assumption. nia.
Qed.

(** With denominators whose product is at most [10 ^ DECIMAL_PLACES], rounding
    keeps distinct ratios distinct: equality of the rounded ratios is equality
    of the cross products. *)
Lemma rounded_ratio_exact dp n1 d1 n2 d2 :
  0 <= n1 -> 0 <= n2 -> 0 < d1 -> 0 < d2 ->
  d1 * d2 <= BigNumber.pow10 dp ->
  rounded_ratio dp n1 d1 = rounded_ratio dp n2 d2 <-> n1 * d2 = n2 * d1.
Proof.
  intros N1 N2 H1 H2 Hsmall. pose proof (pow10_pos dp) as Hp. split.
  - intros E.
    destruct (Z.lt_trichotomy (n1 * d2) (n2 * d1)) as [Hlt|[Heq|Hgt]]; [|exact Heq|].
    + assert (rounded_ratio dp n1 d1 < rounded_ratio dp n2 d2)
        by (apply rounded_ratio_separated; try assumption; nia).
      lia.
    + assert (rounded_ratio dp n2 d2 < rounded_ratio dp n1 d1)
        by (apply rounded_ratio_separated; try assumption; nia).
      lia.
  - intros E. apply rounded_ratio_eq; assumption.
Qed.

(** ** The BigNumber operations on the values the comparators build *)

Lemma div_of_Z dp n d :
  d <> 0 ->
  BigNumber.div dp (BigNumber.of_Z n) (BigNumber.of_Z d)
  = BigNumber.Decimal (rounded_ratio dp n d) dp.
Proof.
  intros Hd. unfold BigNumber.div, BigNumber.of_Z, rounded_ratio.
  destruct (Z.eqb_spec d 0) as [|_]; [contradiction|].
  rewrite N.add_0_l. unfold BigNumber.pow10 at 2. cbn [Z.of_N].
  rewrite Z.pow_0_r, Z.mul_1_r. reflexivity.
Qed.

Lemma comparedTo_same_places a b e :
  BigNumber.comparedTo (BigNumber.Decimal a e) (BigNumber.Decimal b e)
  = Some (BigNumber.number_of_comparison (a ?= b)).
Proof.
  cbn [BigNumber.comparedTo]. pose proof (pow10_pos e) as Hp.
  f_equal. f_equal. symmetry. apply Zmult_compare_compat_r. lia.
Qed.

Lemma isEqualTo_same_places a b e :
  BigNumber.isEqualTo (BigNumber.Decimal a e) (BigNumber.Decimal b e) = (a =? b).
Proof.
  unfold BigNumber.isEqualTo. rewrite comparedTo_same_places.
  rewrite Z.eqb_compare. destruct (a ?= b); reflexivity.
Qed.

Lemma comparedTo_of_Z a b :
  BigNumber.comparedTo (BigNumber.of_Z a) (BigNumber.of_Z b)
  = Some (BigNumber.number_of_comparison (a ?= b)).
Proof. apply comparedTo_same_places. Qed.

(** ** The comparators as comparisons of keys *)

Lemma compareOrderByFeeRatio_keys dp a b :
  takerAmount a <> 0 -> takerAmount b <> 0 ->
  compareOrderByFeeRatio dp a b
  = Some (BigNumber.number_of_comparison
            (match feePrice dp b ?= feePrice dp a with
             | Eq => expiry a ?= expiry b
             | c => c
             end)).
Proof.
  intros Ha Hb. unfold compareOrderByFeeRatio.
  rewrite !div_of_Z by assumption.
  rewrite isEqualTo_same_places, comparedTo_same_places, comparedTo_of_Z.
  fold (feePrice dp a) (feePrice dp b).
  rewrite Z.eqb_compare, (Z.compare_antisym (feePrice dp b) (feePrice dp a)).
  destruct (feePrice dp b ?= feePrice dp a); reflexivity.
Qed.

Lemma compare_opp_opp x y : (- x ?= - y) = (y ?= x).
Proof. rewrite Z.compare_opp. reflexivity. Qed.

Lemma compareAskOrder_keys dp a b :
  positive_amounts a -> positive_amounts b ->
  compareAskOrder dp a b
  = Some (BigNumber.number_of_comparison (lexicographic (ask_key dp a) (ask_key dp b))).
Proof.
  intros [Ma Ta] [Mb Tb]. unfold compareAskOrder.
  rewrite compareOrderByFeeRatio_keys by lia.
  rewrite !div_of_Z by lia.
  rewrite isEqualTo_same_places, comparedTo_same_places.
  fold (askPrice dp a) (askPrice dp b).
  unfold lexicographic, ask_key. rewrite compare_opp_opp.
  rewrite Z.eqb_compare. destruct (askPrice dp a ?= askPrice dp b); reflexivity.
Qed.

Lemma compareBidOrder_keys dp a b :
  positive_amounts a -> positive_amounts b ->
  compareBidOrder dp a b
  = Some (BigNumber.number_of_comparison (lexicographic (bid_key dp a) (bid_key dp b))).
Proof.
  intros [Ma Ta] [Mb Tb]. unfold compareBidOrder.
  rewrite compareOrderByFeeRatio_keys by lia.
  rewrite !div_of_Z by lia.
  rewrite isEqualTo_same_places, comparedTo_same_places.
  fold (bidPrice dp a) (bidPrice dp b).
  unfold lexicographic, bid_key. rewrite !compare_opp_opp.
  rewrite Z.eqb_compare, (Z.compare_antisym (bidPrice dp b) (bidPrice dp a)).
  destruct (bidPrice dp b ?= bidPrice dp a); reflexivity.
Qed.

(** ** Lexicographic comparison is a total preorder *)

Lemma lexicographic_refl k : lexicographic k k = Eq.
Proof.
  destruct k as [[k1 k2] k3]. unfold lexicographic.
  rewrite !Z.compare_refl. reflexivity.
Qed.

Lemma lexicographic_antisym k1 k2 :
  lexicographic k2 k1 = CompOpp (lexicographic k1 k2).
Proof.
  destruct k1 as [[a1 a2] a3], k2 as [[b1 b2] b3]. unfold lexicographic.
  rewrite (Z.compare_antisym a1 b1), (Z.compare_antisym a2 b2), (Z.compare_antisym a3 b3).
  destruct (a1 ?= b1), (a2 ?= b2), (a3 ?= b3); reflexivity.
Qed.

Lemma lexicographic_trans k1 k2 k3 :
  lexicographic k1 k2 <> Gt -> lexicographic k2 k3 <> Gt -> lexicographic k1 k3 <> Gt.
Proof.
  destruct k1 as [[a1 a2] a3], k2 as [[b1 b2] b3], k3 as [[c1 c2] c3].
  unfold lexicographic.
  destruct (Z.compare_spec a1 b1), (Z.compare_spec b1 c1), (Z.compare_spec a1 c1);
    try lia; try congruence;
  destruct (Z.compare_spec a2 b2), (Z.compare_spec b2 c2), (Z.compare_spec a2 c2);
    try lia; try congruence;
  destruct (Z.compare_spec a3 b3), (Z.compare_spec b3 c3), (Z.compare_spec a3 c3);
    try lia; congruence.
Qed.

Lemma number_of_comparison_opp c :
  BigNumber.number_of_comparison (CompOpp c) = - BigNumber.number_of_comparison c.
Proof. destruct c; reflexivity. Qed.

Lemma number_of_comparison_nonpos c :
  (BigNumber.number_of_comparison c <=? 0) = true <-> c <> Gt.
Proof. destruct c; cbn; split; congruence. Qed.

(** ** Sorting with a comparator that is total on its domain *)
Section SortingFacts.
Variable compare : SignedLimitOrder -> SignedLimitOrder -> option Z.
Variable domain : SignedLimitOrder -> Prop.
Hypothesis compare_total :
  forall a b, domain a -> domain b ->
    keeps_before compare a b = false -> keeps_before compare b a = true.

Lemma insert_order_Permutation x l : Permutation (insert_order compare x l) (x :: l).
Proof.
  induction l as [|y l IH]; cbn; [reflexivity|].
  destruct (keeps_before compare x y); [reflexivity|].
  rewrite IH. apply perm_swap.
Qed.

Lemma sort_orders_Permutation l : Permutation (sort_orders compare l) l.
Proof.
  induction l as [|x l IH]; cbn; [reflexivity|].
  rewrite insert_order_Permutation, IH. reflexivity.
Qed.

Lemma sort_orders_domain l : Forall domain l -> Forall domain (sort_orders compare l).
Proof.
  intros H. eapply Permutation_Forall; [|exact H].
  symmetry. apply sort_orders_Permutation.
Qed.

Lemma insert_order_ranked x l :
  domain x -> Forall domain l -> ranked compare l -> ranked compare (insert_order compare x l).
Proof.
  intros Hx Hl. induction l as [|y l IH]; intros Hr; cbn [insert_order]; [exact I|].
  destruct (keeps_before compare x y) eqn:Exy.
  - split; assumption.
  - inversion Hl as [|? ? Hy Hl']; subst.
    assert (Hyx : keeps_before compare y x = true) by (apply compare_total; assumption).
    destruct l as [|z l].
    + cbn. split; [assumption | exact I].
    + destruct Hr as [Hyz Hr]. specialize (IH Hl' Hr).
      cbn [insert_order] in *.
      destruct (keeps_before compare x z); split; assumption.
Qed.

Lemma sort_orders_ranked l : Forall domain l -> ranked compare (sort_orders compare l).
Proof.
  induction l as [|x l IH]; intros Hl; cbn [sort_orders]; [exact I|].
  inversion Hl; subst.
  apply insert_order_ranked; auto using sort_orders_domain.
Qed.

(** Sorting leaves a ranked list as it is. *)
Lemma sort_orders_fixes_ranked l : ranked compare l -> sort_orders compare l = l.
Proof.
  induction l as [|x l IH]; intros Hr; [reflexivity|].
  cbn [sort_orders]. destruct l as [|y l]; [reflexivity|].
  destruct Hr as [Hxy Hr]. rewrite (IH Hr). cbn [insert_order].
  rewrite Hxy. reflexivity.
Qed.

Lemma sort_orders_idempotent l :
  Forall domain l -> sort_orders compare (sort_orders compare l) = sort_orders compare l.
Proof. intros Hl. apply sort_orders_fixes_ranked, sort_orders_ranked, Hl. Qed.
End SortingFacts.

(** ** Consistency of the two comparators *)

Lemma keeps_before_of_keys compare key a b :
  compare a b = Some (BigNumber.number_of_comparison (lexicographic (key a) (key b))) ->
  keeps_before compare a b = true <-> lexicographic (key a) (key b) <> Gt.
Proof.
  intros E. unfold keeps_before. rewrite E. apply number_of_comparison_nonpos.
Qed.

Lemma keyed_comparator_total (compare : SignedLimitOrder -> SignedLimitOrder -> option Z)
  (key : SignedLimitOrder -> Z * Z * Z) :
  (forall a b, positive_amounts a -> positive_amounts b ->
     compare a b = Some (BigNumber.number_of_comparison (lexicographic (key a) (key b)))) ->
  forall a b, positive_amounts a -> positive_amounts b ->
    keeps_before compare a b = false -> keeps_before compare b a = true.
Proof.
  intros Hk a b Ha Hb Hab.
  apply (keeps_before_of_keys compare key b a (Hk b a Hb Ha)).
  rewrite lexicographic_antisym.
  destruct (lexicographic (key a) (key b)) eqn:E; cbn; try congruence.
  exfalso. assert (keeps_before compare a b = true); [|congruence].
  apply (keeps_before_of_keys compare key a b (Hk a b Ha Hb)). congruence.
Qed.

Lemma keyed_comparator_consistent (compare : SignedLimitOrder -> SignedLimitOrder -> option Z)
  (key : SignedLimitOrder -> Z * Z * Z) :
  (forall a b, positive_amounts a -> positive_amounts b ->
     compare a b = Some (BigNumber.number_of_comparison (lexicographic (key a) (key b)))) ->
  forall a b c, positive_amounts a -> positive_amounts b -> positive_amounts c ->
    compare a a = Some 0 /\
    (exists ab, compare a b = Some ab /\ compare b a = Some (- ab)) /\
    (keeps_before compare a b = true -> keeps_before compare b c = true ->
     keeps_before compare a c = true).
Proof.
  intros Hk a b c Ha Hb Hc. repeat split.
  - rewrite (Hk a a Ha Ha), lexicographic_refl. reflexivity.
  - eexists. split; [apply (Hk a b Ha Hb)|].
    rewrite (Hk b a Hb Ha), lexicographic_antisym, number_of_comparison_opp. reflexivity.
  - intros Hab Hbc.
    apply (keeps_before_of_keys compare key a c (Hk a c Ha Hc)).
    apply (keeps_before_of_keys compare key a b (Hk a b Ha Hb)) in Hab.
    apply (keeps_before_of_keys compare key b c (Hk b c Hb Hc)) in Hbc.
    eapply lexicographic_trans; eassumption.
Qed.

(** C4: on orders with positive amounts, [compareAskOrder] and
    [compareBidOrder] are consistent comparators: an order compares equal to
    itself, swapping the arguments negates the result, "not after" is
    transitive, and so sorting a sequence by either of them twice gives the
    same sequence as sorting it once. *)
Theorem comparators_consistent (DECIMAL_PLACES : N) (a b c : SignedLimitOrder)
  (l : list SignedLimitOrder) :
  positive_amounts a -> positive_amounts b -> positive_amounts c ->
  Forall positive_amounts l ->
  (compareAskOrder DECIMAL_PLACES a a = Some 0 /\
   (exists ab, compareAskOrder DECIMAL_PLACES a b = Some ab /\
               compareAskOrder DECIMAL_PLACES b a = Some (- ab)) /\
   (keeps_before (compareAskOrder DECIMAL_PLACES) a b = true ->
    keeps_before (compareAskOrder DECIMAL_PLACES) b c = true ->
    keeps_before (compareAskOrder DECIMAL_PLACES) a c = true)) /\
  (compareBidOrder DECIMAL_PLACES a a = Some 0 /\
   (exists ab, compareBidOrder DECIMAL_PLACES a b = Some ab /\
               compareBidOrder DECIMAL_PLACES b a = Some (- ab)) /\
   (keeps_before (compareBidOrder DECIMAL_PLACES) a b = true ->
    keeps_before (compareBidOrder DECIMAL_PLACES) b c = true ->
    keeps_before (compareBidOrder DECIMAL_PLACES) a c = true)) /\
  sort_orders (compareAskOrder DECIMAL_PLACES) (sort_orders (compareAskOrder DECIMAL_PLACES) l)
  = sort_orders (compareAskOrder DECIMAL_PLACES) l /\
  sort_orders (compareBidOrder DECIMAL_PLACES) (sort_orders (compareBidOrder DECIMAL_PLACES) l)
  = sort_orders (compareBidOrder DECIMAL_PLACES) l.
Proof.
  intros Ha Hb Hc Hl.
  split; [|split; [|split]].
  - apply (keyed_comparator_consistent _ (ask_key DECIMAL_PLACES)); try assumption.
    apply compareAskOrder_keys.
  - apply (keyed_comparator_consistent _ (bid_key DECIMAL_PLACES)); try assumption.
    apply compareBidOrder_keys.
  - apply (sort_orders_idempotent _ positive_amounts); [|assumption].
    apply (keyed_comparator_total _ (ask_key DECIMAL_PLACES)), compareAskOrder_keys.
  - apply (sort_orders_idempotent _ positive_amounts); [|assumption].
    apply (keyed_comparator_total _ (bid_key DECIMAL_PLACES)), compareBidOrder_keys.
Qed.

Ltac concrete_amounts := unfold positive_amounts; cbn; lia.

Lemma comparators_consistent_witness :
  let a := order_of_amounts 100 90 1 1000 in
  let b := order_of_amounts 100 95 0 2000 in
  let c := order_of_amounts 3 7 2 500 in
  keeps_before (compareAskOrder 78) a b = true /\
  keeps_before (compareAskOrder 78) b c = true /\
  keeps_before (compareAskOrder 78) a c = true /\
  sort_orders (compareBidOrder 78) (sort_orders (compareBidOrder 78) [c; a; b])
  = sort_orders (compareBidOrder 78) [c; a; b].
Proof.
  intros a b c.
  destruct (comparators_consistent 78 a b c [c; a; b]) as ((_ & _ & Htrans) & _ & _ & Hbid);
    try concrete_amounts.
  - repeat constructor; concrete_amounts.
  - split; [|split; [|split]].
    + vm_compute. reflexivity.
    + vm_compute. reflexivity.
    + apply Htrans; vm_compute; reflexivity.
    + exact Hbid.
Defined.

(** ** The fee tie-break *)

(** The code ranks a higher fee rate first: with fee rates 1/100 and 2/100
    the comparator answers 1, which places the order with the lower fee rate
    after the other. *)
Lemma compareOrderByFeeRatio_not_fee_ascending :
  let a := order_of_amounts 100 100 1 5 in
  let b := order_of_amounts 100 100 2 5 in
  0 < takerAmount a /\ 0 < takerAmount b /\
  takerTokenFeeAmount a * takerAmount b < takerTokenFeeAmount b * takerAmount a /\
  compareOrderByFeeRatio 78 a b = Some 1 /\
  ~ (exists c, compareOrderByFeeRatio 78 a b = Some c /\ c < 0).
Proof.
  cbv zeta.
  assert (E : compareOrderByFeeRatio 78 (order_of_amounts 100 100 1 5)
                (order_of_amounts 100 100 2 5) = Some 1) by (vm_compute; reflexivity).
  split; [cbn; lia|]. split; [cbn; lia|]. split; [cbn; lia|]. split; [exact E|].
  intros (c & Ec & Hc). rewrite E in Ec. injection Ec as <-. lia.
Qed.

(** The example of the specification, through [compareAskOrder]: equal
    prices, fee rates 0.01 and 0.02. *)
Example fee_tie_break_example :
  compareAskOrder 78 (order_of_amounts 100 100 1 5) (order_of_amounts 100 100 2 5) = Some 1
  /\ sort_orders (compareAskOrder 78)
       [order_of_amounts 100 100 1 5; order_of_amounts 100 100 2 5]
     = [order_of_amounts 100 100 2 5; order_of_amounts 100 100 1 5].
Proof. split; vm_compute; reflexivity. Qed.

(** The expiry tie-break of the specification: equal price and fee rate,
    expiries 1000 and 2000. *)
Example expiry_tie_break_example :
  compareAskOrder 78 (order_of_amounts 100 100 1 1000) (order_of_amounts 100 100 1 2000)
  = Some (-1).
Proof. vm_compute. reflexivity. Qed.

(** C1, as the code has it: for orders with positive [takerAmount],
    [compareOrderByFeeRatio] ranks by the fee rate
    [takerTokenFeeAmount / takerAmount], rounded to [DECIMAL_PLACES] decimal
    places, descending: a strictly higher rounded fee rate gives -1 (it ranks
    first), a strictly lower one gives 1; when the rounded fee rates are
    equal, which they are whenever the exact fee rates are equal, the result
    is the comparison of the expiries, ascending. *)
Theorem compareOrderByFeeRatio_fee_descending (DECIMAL_PLACES : N) (a b : SignedLimitOrder) :
  0 < takerAmount a -> 0 < takerAmount b ->
  (feePrice DECIMAL_PLACES b < feePrice DECIMAL_PLACES a ->
   compareOrderByFeeRatio DECIMAL_PLACES a b = Some (-1)) /\
  (feePrice DECIMAL_PLACES a < feePrice DECIMAL_PLACES b ->
   compareOrderByFeeRatio DECIMAL_PLACES a b = Some 1) /\
  (feePrice DECIMAL_PLACES a = feePrice DECIMAL_PLACES b ->
   compareOrderByFeeRatio DECIMAL_PLACES a b
   = Some (BigNumber.number_of_comparison (expiry a ?= expiry b))) /\
  (takerTokenFeeAmount a * takerAmount b = takerTokenFeeAmount b * takerAmount a ->
   compareOrderByFeeRatio DECIMAL_PLACES a b
   = Some (BigNumber.number_of_comparison (expiry a ?= expiry b))).
Proof.
  intros Ta Tb.
  rewrite compareOrderByFeeRatio_keys by lia.
  assert (Heq : feePrice DECIMAL_PLACES a = feePrice DECIMAL_PLACES b ->
                Some (BigNumber.number_of_comparison
                        match feePrice DECIMAL_PLACES b ?= feePrice DECIMAL_PLACES a with
                        | Eq => expiry a ?= expiry b
                        | c => c
                        end)
                = Some (BigNumber.number_of_comparison (expiry a ?= expiry b))).
  { intros ->. rewrite Z.compare_refl. reflexivity. }
  repeat split.
  - intros H. apply Z.compare_lt_iff in H. rewrite H. reflexivity.
  - intros H. apply Z.compare_gt_iff in H. rewrite H. reflexivity.
  - exact Heq.
  - intros H. apply Heq. unfold feePrice. apply rounded_ratio_eq; assumption.
Qed.

Lemma compareOrderByFeeRatio_fee_descending_witness :
  compareOrderByFeeRatio 78 (order_of_amounts 100 100 2 5) (order_of_amounts 100 100 1 5)
  = Some (-1)
  /\ compareOrderByFeeRatio 78 (order_of_amounts 100 200 2 1000) (order_of_amounts 100 100 1 2000)
     = Some (-1).
Proof.
  split.
  - apply (compareOrderByFeeRatio_fee_descending 78
             (order_of_amounts 100 100 2 5) (order_of_amounts 100 100 1 5));
      try (cbn; lia).
    vm_compute. reflexivity.
  - apply (compareOrderByFeeRatio_fee_descending 78
             (order_of_amounts 100 200 2 1000) (order_of_amounts 100 100 1 2000));
      cbn; lia.
Defined.

(** ** The price comparison *)

Lemma ask_quotient_rounded dp o :
  makerAmount o <> 0 -> ask_quotient dp o = BigNumber.Decimal (askPrice dp o) dp.
Proof. intros H. unfold ask_quotient, askPrice. apply div_of_Z, H. Qed.

Lemma askPrice_mono dp a b :
  positive_amounts a -> positive_amounts b ->
  takerAmount a * makerAmount b <= takerAmount b * makerAmount a ->
  askPrice dp a <= askPrice dp b.
Proof.
  intros [Ma Ta] [Mb Tb] H. unfold askPrice. apply rounded_ratio_mono; lia.
Qed.

Lemma askPrice_separated dp a b :
  positive_amounts a -> positive_amounts b ->
  makerAmount a * makerAmount b
  <= (takerAmount b * makerAmount a - takerAmount a * makerAmount b) * BigNumber.pow10 dp ->
  askPrice dp a < askPrice dp b.
Proof.
  intros [Ma Ta] [Mb Tb] H. unfold askPrice.
  apply rounded_ratio_separated; lia.
Qed.

Lemma compareAskOrder_to_fee dp a b :
  positive_amounts a -> positive_amounts b ->
  compareAskOrder dp a b
  = if askPrice dp a =? askPrice dp b then compareOrderByFeeRatio dp a b
    else Some (BigNumber.number_of_comparison (askPrice dp a ?= askPrice dp b)).
Proof.
  intros [Ma Ta] [Mb Tb]. unfold compareAskOrder.
  rewrite !div_of_Z by lia.
  rewrite isEqualTo_same_places, comparedTo_same_places.
  fold (askPrice dp a) (askPrice dp b).
  destruct (askPrice dp a =? askPrice dp b); reflexivity.
Qed.

(** Whatever the number of decimal places, some pair of distinct prices is
    rounded to the same quotient. *)
Lemma rounding_merges_prices_at_any_precision dp :
  let a := order_of_amounts (10 * BigNumber.pow10 dp) 1 0 0 in
  let b := order_of_amounts (10 * BigNumber.pow10 dp) 2 0 0 in
  positive_amounts a /\ positive_amounts b /\
  takerAmount a * makerAmount b < takerAmount b * makerAmount a /\
  BigNumber.isEqualTo (ask_quotient dp a) (ask_quotient dp b) = true.
Proof.
  intros a b. pose proof (pow10_pos dp) as Hp.
  assert (Ha : positive_amounts a) by (unfold positive_amounts; cbn; lia).
  assert (Hb : positive_amounts b) by (unfold positive_amounts; cbn; lia).
  split; [exact Ha|]. split; [exact Hb|]. split; [cbn; lia|].
  rewrite !ask_quotient_rounded by (cbn; lia).
  rewrite isEqualTo_same_places. apply Z.eqb_eq.
  unfold askPrice, rounded_ratio. cbn [takerAmount makerAmount a b order_of_amounts].
  rewrite !round_half_up_nonneg by lia.
  rewrite !Z.div_small by lia. reflexivity.
Qed.

(** Two orders whose exact prices differ and whose quotients agree to 78
    decimal places: [a] is exactly cheaper than [b], yet [compareAskOrder]
    treats the two prices as equal, hands the pair to the tie-break and, [a]
    expiring later, ranks [a] after [b]. *)
Lemma compareAskOrder_not_cross_multiplication :
  let a := order_of_amounts (10 ^ 40 + 1) 1 0 9 in
  let b := order_of_amounts (10 ^ 40) 1 0 5 in
  positive_amounts a /\ positive_amounts b /\
  takerAmount a * makerAmount b < takerAmount b * makerAmount a /\
  BigNumber.isEqualTo (ask_quotient 78 a) (ask_quotient 78 b) = true /\
  BigNumber.comparedTo (ask_quotient 78 a) (ask_quotient 78 b) = Some 0 /\
  compareAskOrder 78 a b = compareOrderByFeeRatio 78 a b /\
  compareAskOrder 78 a b = Some 1 /\
  compareAskOrder 78 b a = Some (-1) /\
  sort_orders (compareAskOrder 78) [a; b] = [b; a] /\
  ~ (takerAmount a * makerAmount b < takerAmount b * makerAmount a ->
     compareAskOrder 78 a b = Some (-1)).
Proof.
  cbv zeta.
  set (a := order_of_amounts (10 ^ 40 + 1) 1 0 9).
  set (b := order_of_amounts (10 ^ 40) 1 0 5).
  assert (Hlt : takerAmount a * makerAmount b < takerAmount b * makerAmount a)
    by (cbn; lia).
  assert (Hafter : compareAskOrder 78 a b = Some 1) by (vm_compute; reflexivity).
  split; [concrete_amounts|]. split; [concrete_amounts|].
  split; [exact Hlt|]. split; [vm_compute; reflexivity|]. split; [vm_compute; reflexivity|].
  split; [vm_compute; reflexivity|]. split; [exact Hafter|].
  split; [vm_compute; reflexivity|]. split; [vm_compute; reflexivity|].
  intros Hclaim. specialize (Hclaim Hlt). rewrite Hafter in Hclaim. discriminate Hclaim.
Qed.

(** C2, as the code has it: for orders with positive amounts,
    [compareAskOrder] decides on the quotients [takerAmount / makerAmount]
    after [div] has rounded them to [DECIMAL_PLACES] decimal places, not by
    cross-multiplication: it returns the comparison of the rounded quotients
    when they differ, and what [compareOrderByFeeRatio] returns when they
    agree.  Orders whose prices are exactly equal always go to the
    tie-break, and an order whose price is exactly lower is put first or
    goes to the tie-break, never last on the price.  When
    [a.makerAmount * b.makerAmount <= 10 ^ DECIMAL_PLACES] the comparison
    is that of the cross products: it returns -1 for an exactly lower price,
    1 for an exactly higher one, and goes to the tie-break only for exactly
    equal prices.  The same holds of the fee rates of
    [compareOrderByFeeRatio] when the fees are not negative and
    [a.takerAmount * b.takerAmount <= 10 ^ DECIMAL_PLACES]: it returns -1
    when [a] pays the exactly higher rate, 1 when it pays the exactly lower
    one, and the comparison of the expiries when the rates are exactly
    equal. *)
Theorem compareAskOrder_compares_rounded_quotients (DECIMAL_PLACES : N)
  (a b : SignedLimitOrder) :
  positive_amounts a -> positive_amounts b ->
  compareAskOrder DECIMAL_PLACES a b
  = (if negb (BigNumber.isEqualTo (ask_quotient DECIMAL_PLACES a)
                (ask_quotient DECIMAL_PLACES b))
     then BigNumber.comparedTo (ask_quotient DECIMAL_PLACES a) (ask_quotient DECIMAL_PLACES b)
     else compareOrderByFeeRatio DECIMAL_PLACES a b) /\
  compareAskOrder DECIMAL_PLACES a b
  = (if askPrice DECIMAL_PLACES a =? askPrice DECIMAL_PLACES b
     then compareOrderByFeeRatio DECIMAL_PLACES a b
     else Some (BigNumber.number_of_comparison
                  (askPrice DECIMAL_PLACES a ?= askPrice DECIMAL_PLACES b))) /\
  BigNumber.isEqualTo (ask_quotient DECIMAL_PLACES a) (ask_quotient DECIMAL_PLACES b)
  = (askPrice DECIMAL_PLACES a =? askPrice DECIMAL_PLACES b) /\
  BigNumber.comparedTo (ask_quotient DECIMAL_PLACES a) (ask_quotient DECIMAL_PLACES b)
  = Some (BigNumber.number_of_comparison
            (askPrice DECIMAL_PLACES a ?= askPrice DECIMAL_PLACES b)) /\
  (takerAmount a * makerAmount b = takerAmount b * makerAmount a ->
   BigNumber.isEqualTo (ask_quotient DECIMAL_PLACES a) (ask_quotient DECIMAL_PLACES b) = true /\
   compareAskOrder DECIMAL_PLACES a b = compareOrderByFeeRatio DECIMAL_PLACES a b) /\
  (BigNumber.comparedTo (ask_quotient DECIMAL_PLACES a) (ask_quotient DECIMAL_PLACES b)
   = Some (-1) ->
   takerAmount a * makerAmount b < takerAmount b * makerAmount a) /\
  (takerAmount a * makerAmount b < takerAmount b * makerAmount a ->
   compareAskOrder DECIMAL_PLACES a b = Some (-1) \/
   compareAskOrder DECIMAL_PLACES a b = compareOrderByFeeRatio DECIMAL_PLACES a b) /\
  (takerAmount b * makerAmount a < takerAmount a * makerAmount b ->
   compareAskOrder DECIMAL_PLACES a b = Some 1 \/
   compareAskOrder DECIMAL_PLACES a b = compareOrderByFeeRatio DECIMAL_PLACES a b) /\
  (makerAmount a * makerAmount b <= 10 ^ Z.of_N DECIMAL_PLACES ->
   (BigNumber.isEqualTo (ask_quotient DECIMAL_PLACES a) (ask_quotient DECIMAL_PLACES b) = true
    <-> takerAmount a * makerAmount b = takerAmount b * makerAmount a) /\
   (BigNumber.comparedTo (ask_quotient DECIMAL_PLACES a) (ask_quotient DECIMAL_PLACES b)
    = Some (-1)
    <-> takerAmount a * makerAmount b < takerAmount b * makerAmount a) /\
   (takerAmount a * makerAmount b < takerAmount b * makerAmount a ->
    compareAskOrder DECIMAL_PLACES a b = Some (-1)) /\
   (takerAmount b * makerAmount a < takerAmount a * makerAmount b ->
    compareAskOrder DECIMAL_PLACES a b = Some 1)) /\
  (0 <= takerTokenFeeAmount a -> 0 <= takerTokenFeeAmount b ->
   takerAmount a * takerAmount b <= 10 ^ Z.of_N DECIMAL_PLACES ->
   (feePrice DECIMAL_PLACES a = feePrice DECIMAL_PLACES b
    <-> takerTokenFeeAmount a * takerAmount b = takerTokenFeeAmount b * takerAmount a) /\
   (takerTokenFeeAmount b * takerAmount a < takerTokenFeeAmount a * takerAmount b ->
    compareOrderByFeeRatio DECIMAL_PLACES a b = Some (-1)) /\
   (takerTokenFeeAmount a * takerAmount b < takerTokenFeeAmount b * takerAmount a ->
    compareOrderByFeeRatio DECIMAL_PLACES a b = Some 1) /\
   (takerTokenFeeAmount a * takerAmount b = takerTokenFeeAmount b * takerAmount a ->
    compareOrderByFeeRatio DECIMAL_PLACES a b
    = Some (BigNumber.number_of_comparison (expiry a ?= expiry b)))).
Proof.
  intros Ha Hb.
  pose proof Ha as [Ma Ta]. pose proof Hb as [Mb Tb].
  pose proof (compareAskOrder_to_fee DECIMAL_PLACES a b Ha Hb) as Hcode.
  split; [reflexivity|]. split; [exact Hcode|].
  rewrite !ask_quotient_rounded by lia.
  rewrite isEqualTo_same_places, comparedTo_same_places.
  set (pa := askPrice DECIMAL_PLACES a) in *. set (pb := askPrice DECIMAL_PLACES b) in *.
  assert (Hle : takerAmount a * makerAmount b <= takerAmount b * makerAmount a -> pa <= pb).
  { intros H. apply askPrice_mono; assumption. }
  assert (Hge : takerAmount b * makerAmount a <= takerAmount a * makerAmount b -> pb <= pa).
  { intros H. apply askPrice_mono; assumption. }
  assert (Hlt_sound : Some (BigNumber.number_of_comparison (pa ?= pb)) = Some (-1) ->
                      takerAmount a * makerAmount b < takerAmount b * makerAmount a).
  { intros E.
    destruct (Z.compare_spec pa pb) as [| Hlt |]; cbn in E; try discriminate.
    destruct (Z_lt_ge_dec (takerAmount a * makerAmount b) (takerAmount b * makerAmount a))
      as [|Hno]; [assumption|exfalso].
    assert (pb <= pa) by (apply Hge; lia). lia. }
  assert (Heq_complete : takerAmount a * makerAmount b = takerAmount b * makerAmount a ->
                         (pa =? pb) = true).
  { intros E. apply Z.eqb_eq, Z.le_antisymm; [apply Hle | apply Hge]; lia. }
  split; [reflexivity|]. split; [reflexivity|].
  split.
  { intros E. split; [exact (Heq_complete E)|]. rewrite Hcode, (Heq_complete E). reflexivity. }
  split; [exact Hlt_sound|].
  split.
  { intros Hlt. rewrite Hcode. destruct (Z.eqb_spec pa pb) as [|Hne]; [right; reflexivity|].
    left. assert (pa < pb) by (specialize (Hle ltac:(lia)); lia).
    rewrite (proj2 (Z.compare_lt_iff pa pb)) by assumption. reflexivity. }
  split.
  { intros Hgt. rewrite Hcode. destruct (Z.eqb_spec pa pb) as [|Hne]; [right; reflexivity|].
    left. assert (pb < pa) by (specialize (Hge ltac:(lia)); lia).
    rewrite (proj2 (Z.compare_gt_iff pa pb)) by assumption. reflexivity. }
  split.
  - intros Hsmall. fold (BigNumber.pow10 DECIMAL_PLACES) in Hsmall.
    assert (Hlt_complete : takerAmount a * makerAmount b < takerAmount b * makerAmount a ->
                           pa < pb).
    { intros Hlt. apply askPrice_separated; try assumption.
      pose proof (pow10_pos DECIMAL_PLACES). nia. }
    assert (Hgt_complete : takerAmount b * makerAmount a < takerAmount a * makerAmount b ->
                           pb < pa).
    { intros Hlt. apply askPrice_separated; try assumption.
      pose proof (pow10_pos DECIMAL_PLACES). nia. }
    split; [|split; [|split]].
    + split; [|exact Heq_complete].
      intros E. apply Z.eqb_eq in E.
      destruct (Z.lt_trichotomy (takerAmount a * makerAmount b) (takerAmount b * makerAmount a))
        as [H|[H|H]]; [apply Hlt_complete in H; lia | exact H | apply Hgt_complete in H; lia].
    + split; [exact Hlt_sound|].
      intros Hlt. apply Hlt_complete, Z.compare_lt_iff in Hlt. rewrite Hlt. reflexivity.
    + intros Hlt. apply Hlt_complete in Hlt. rewrite Hcode.
      destruct (Z.eqb_spec pa pb); [lia|].
      rewrite (proj2 (Z.compare_lt_iff pa pb)) by assumption. reflexivity.
    + intros Hgt. apply Hgt_complete in Hgt. rewrite Hcode.
      destruct (Z.eqb_spec pa pb); [lia|].
      rewrite (proj2 (Z.compare_gt_iff pa pb)) by lia. reflexivity.
  - intros Fa Fb Hsmall. fold (BigNumber.pow10 DECIMAL_PLACES) in Hsmall.
    pose proof (pow10_pos DECIMAL_PLACES) as Hp.
    rewrite (compareOrderByFeeRatio_keys DECIMAL_PLACES a b) by lia.
    split; [apply rounded_ratio_exact; assumption|].
    split; [|split].
    + intros Hhigher.
      assert (Hsep : feePrice DECIMAL_PLACES b < feePrice DECIMAL_PLACES a).
      { unfold feePrice. apply rounded_ratio_separated; try assumption. nia. }
      rewrite (proj2 (Z.compare_lt_iff _ _) Hsep). reflexivity.
    + intros Hlower.
      assert (Hsep : feePrice DECIMAL_PLACES a < feePrice DECIMAL_PLACES b).
      { unfold feePrice. apply rounded_ratio_separated; try assumption. nia. }
      rewrite (proj2 (Z.compare_gt_iff _ _) Hsep). reflexivity.
    + intros Hsame.
      assert (Heq : feePrice DECIMAL_PLACES b = feePrice DECIMAL_PLACES a).
      { unfold feePrice. apply rounded_ratio_eq; lia. }
      rewrite Heq, Z.compare_refl. reflexivity.
Qed.

Lemma compareAskOrder_compares_rounded_quotients_witness :
  let a := order_of_amounts (2 ^ 128 - 1) (2 ^ 128 - 2) 3 5 in
  let b := order_of_amounts (2 ^ 128 - 2) (2 ^ 128 - 3) 0 5 in
  takerAmount b * makerAmount a < takerAmount a * makerAmount b /\
  compareAskOrder 78 a b = Some 1 /\
  compareOrderByFeeRatio 78 a b = Some (-1).
Proof.
  intros a b.
  destruct (compareAskOrder_compares_rounded_quotients 78 a b)
    as (_ & _ & _ & _ & _ & _ & _ & _ & Hexact & Hfee);
    try concrete_amounts.
  destruct Hexact as (_ & _ & _ & Hdearer); [vm_compute; discriminate|].
  destruct Hfee as (_ & Hhigher & _); [cbn; lia | cbn; lia | vm_compute; discriminate|].
  assert (Hgt : takerAmount b * makerAmount a < takerAmount a * makerAmount b)
    by (vm_compute; reflexivity).
  split; [exact Hgt|]. split; [exact (Hdearer Hgt)|].
  apply Hhigher. vm_compute. reflexivity.
Defined.

(** With the 78 decimal places that [@0x/utils] configures, the comparison is
    exact on every pair of orders whose maker amounts fit in 128 bits, the
    width of the amounts of a limit order on chain. *)
Lemma uint128_prices_compare_exactly a b :
  positive_amounts a -> positive_amounts b ->
  makerAmount a < 2 ^ 128 -> makerAmount b < 2 ^ 128 ->
  (askPrice 78 a = askPrice 78 b
   <-> takerAmount a * makerAmount b = takerAmount b * makerAmount a) /\
  (askPrice 78 a < askPrice 78 b
   <-> takerAmount a * makerAmount b < takerAmount b * makerAmount a).
Proof.
  intros Ha Hb Ua Ub. pose proof Ha as [Ma Ta]. pose proof Hb as [Mb Tb].
  assert (Hsmall : makerAmount a * makerAmount b <= BigNumber.pow10 78).
  { assert (makerAmount a * makerAmount b <= 2 ^ 128 * 2 ^ 128) by nia.
    assert (2 ^ 128 * 2 ^ 128 <= BigNumber.pow10 78) by (vm_compute; discriminate).
    lia. }
  assert (Heq : askPrice 78 a = askPrice 78 b
                <-> takerAmount a * makerAmount b = takerAmount b * makerAmount a)
    by (unfold askPrice; apply rounded_ratio_exact; lia).
  split; [exact Heq|]. split.
  - intros Hlt.
    destruct (Z_lt_ge_dec (takerAmount a * makerAmount b) (takerAmount b * makerAmount a))
      as [|Hge]; [assumption|exfalso].
    assert (askPrice 78 b <= askPrice 78 a) by (apply askPrice_mono; try assumption; lia).
    lia.
  - intros Hlt.
    assert (askPrice 78 a <= askPrice 78 b) by (apply askPrice_mono; try assumption; lia).
    assert (askPrice 78 a <> askPrice 78 b) by (rewrite Heq; lia).
    lia.
Qed.

(** ** Price dominance *)

(** Strictly lower exact price, equal fee and expiry, and yet the comparator
    answers 0: the two quotients agree to 78 decimal places. *)
Lemma compareAskOrder_price_dominance_fails :
  let a := order_of_amounts (10 ^ 45 + 7) 2 0 1000 in
  let b := order_of_amounts (10 ^ 45) 2 0 1000 in
  positive_amounts a /\ positive_amounts b /\
  takerTokenFeeAmount a * takerAmount b = takerTokenFeeAmount b * takerAmount a /\
  expiry a = expiry b /\
  takerAmount a * makerAmount b < takerAmount b * makerAmount a /\
  compareAskOrder 78 a b = Some 0 /\
  ~ (exists c, compareAskOrder 78 a b = Some c /\ c < 0).
Proof.
  cbv zeta.
  set (a := order_of_amounts (10 ^ 45 + 7) 2 0 1000).
  set (b := order_of_amounts (10 ^ 45) 2 0 1000).
  assert (E : compareAskOrder 78 a b = Some 0) by (vm_compute; reflexivity).
  split; [concrete_amounts|]. split; [concrete_amounts|].
  split; [reflexivity|]. split; [reflexivity|]. split; [cbn; lia|]. split; [exact E|].
  intros (c & Ec & Hc). rewrite E in Ec. injection Ec as <-. lia.
Qed.

(** C3, as the code has it: for ask orders with positive amounts, equal fee
    ratio and equal expiry, if [a]'s exact price [takerAmount / makerAmount] is strictly
    lower than [b]'s then [compareAskOrder a b] is -1 or 0, never positive; it
    is -1 when the two prices are at least [10 ^ -DECIMAL_PLACES] apart.  That
    is the case of a = (maker 100, taker 90) and b = (maker 100, taker 95) as
    soon as [DECIMAL_PLACES] is at least 2. *)
Theorem compareAskOrder_price_dominance (DECIMAL_PLACES : N) (a b : SignedLimitOrder) :
  positive_amounts a -> positive_amounts b ->
  takerTokenFeeAmount a * takerAmount b = takerTokenFeeAmount b * takerAmount a ->
  expiry a = expiry b ->
  takerAmount a * makerAmount b < takerAmount b * makerAmount a ->
  (compareAskOrder DECIMAL_PLACES a b = Some (-1) \/
   compareAskOrder DECIMAL_PLACES a b = Some 0) /\
  (makerAmount a * makerAmount b
   <= (takerAmount b * makerAmount a - takerAmount a * makerAmount b)
      * 10 ^ Z.of_N DECIMAL_PLACES ->
   compareAskOrder DECIMAL_PLACES a b = Some (-1)) /\
  (makerAmount a = 100 -> takerAmount a = 90 ->
   makerAmount b = 100 -> takerAmount b = 95 ->
   2 <= Z.of_N DECIMAL_PLACES ->
   compareAskOrder DECIMAL_PLACES a b = Some (-1)).
Proof.
  intros Ha Hb Hfee Hexp Hprice.
  pose proof Ha as [Ma Ta]. pose proof Hb as [Mb Tb].
  rewrite compareAskOrder_to_fee by assumption.
  assert (Hle : askPrice DECIMAL_PLACES a <= askPrice DECIMAL_PLACES b)
    by (apply askPrice_mono; try assumption; lia).
  assert (Hfee0 : compareOrderByFeeRatio DECIMAL_PLACES a b = Some 0).
  { rewrite compareOrderByFeeRatio_keys by lia.
    rewrite (rounded_ratio_eq DECIMAL_PLACES _ _ _ _ Ta Tb Hfee : feePrice _ a = feePrice _ b).
    rewrite Z.compare_refl, Hexp, Z.compare_refl. reflexivity. }
  assert (Hsep : makerAmount a * makerAmount b
                 <= (takerAmount b * makerAmount a - takerAmount a * makerAmount b)
                    * 10 ^ Z.of_N DECIMAL_PLACES ->
                 (if askPrice DECIMAL_PLACES a =? askPrice DECIMAL_PLACES b
                  then compareOrderByFeeRatio DECIMAL_PLACES a b
                  else Some (BigNumber.number_of_comparison
                               (askPrice DECIMAL_PLACES a ?= askPrice DECIMAL_PLACES b)))
                 = Some (-1)).
  { intros H.
    assert (Hlt : askPrice DECIMAL_PLACES a < askPrice DECIMAL_PLACES b)
      by (apply askPrice_separated; assumption).
    destruct (Z.eqb_spec (askPrice DECIMAL_PLACES a) (askPrice DECIMAL_PLACES b)); [lia|].
    apply Z.compare_lt_iff in Hlt. rewrite Hlt. reflexivity. }
  split; [|split].
  - destruct (Z.eqb_spec (askPrice DECIMAL_PLACES a) (askPrice DECIMAL_PLACES b)) as [|Hne].
    + right. exact Hfee0.
    + left. assert (Hlt : askPrice DECIMAL_PLACES a < askPrice DECIMAL_PLACES b) by lia.
      apply Z.compare_lt_iff in Hlt. rewrite Hlt. reflexivity.
  - exact Hsep.
  - intros E1 E2 E3 E4 Hdp. apply Hsep. rewrite E1, E2, E3, E4.
    assert (10 ^ 2 <= 10 ^ Z.of_N DECIMAL_PLACES) by (apply Z.pow_le_mono_r; lia).
    lia.
Qed.

Lemma compareAskOrder_price_dominance_witness :
  compareAskOrder 78 (order_of_amounts 100 90 18 1000) (order_of_amounts 100 95 19 1000)
  = Some (-1).
Proof.
  apply (compareAskOrder_price_dominance 78
           (order_of_amounts 100 90 18 1000) (order_of_amounts 100 95 19 1000));
    try concrete_amounts; try (cbn; lia); reflexivity.
Defined.

(** ** The partition made by the classifier *)

Lemma includes_In array x : includes array x = true <-> In x array.
Proof.
  unfold includes. rewrite existsb_exists. split.
  - intros (y & Hy & E). apply String.eqb_eq in E. subst. exact Hy.
  - intros H. exists x. split; [exact H | apply String.eqb_refl].
Qed.

Section ClassifierFacts.
Variable PINNED_MM_ADDRESSES : list string.
Variable PINNED_POOL_IDS : list string.

Lemma push_orders_from makerAddresses signedOrders acc :
  fold_left
    (fun pinResult signedOrder =>
       if includes makerAddresses (maker signedOrder)
       then {| pin := pin pinResult ++ [signedOrder]; doNotPin := doNotPin pinResult |}
       else {| pin := pin pinResult; doNotPin := doNotPin pinResult ++ [signedOrder] |})
    signedOrders acc
  = {| pin := pin acc ++ List.filter (pinned_by makerAddresses) signedOrders;
       doNotPin := doNotPin acc
         ++ List.filter (fun o => negb (pinned_by makerAddresses o)) signedOrders |}.
Proof.
  revert acc. induction signedOrders as [|o l IH]; intros [p d]; cbn [fold_left].
  - cbn. rewrite !app_nil_r. reflexivity.
  - rewrite IH. cbn [List.filter]. unfold pinned_by.
    destruct (includes makerAddresses (maker o)); cbn [negb pin doNotPin];
      rewrite <- ?app_assoc; reflexivity.
Qed.

Lemma push_orders_filter makerAddresses signedOrders :
  push_orders makerAddresses signedOrders
  = {| pin := List.filter (pinned_by makerAddresses) signedOrders;
       doNotPin := List.filter (fun o => negb (pinned_by makerAddresses o)) signedOrders |}.
Proof. unfold push_orders. rewrite push_orders_from. reflexivity. Qed.

Lemma filter_split_length {A} (f : A -> bool) (l : list A) :
  (length (List.filter f l) + length (List.filter (fun x => negb (f x)) l) = length l)%nat.
Proof.
  induction l as [|x l IH]; cbn; [reflexivity|].
  destruct (f x); cbn; lia.
Qed.

Lemma filter_split_Permutation {A} (f : A -> bool) (l : list A) :
  Permutation (List.filter f l ++ List.filter (fun x => negb (f x)) l) l.
Proof.
  induction l as [|x l IH]; cbn; [reflexivity|].
  destruct (f x); cbn.
  - constructor. exact IH.
  - rewrite <- Permutation_middle. constructor. exact IH.
Qed.

Lemma filter_sublist {A} (f : A -> bool) (l : list A) : sublist (List.filter f l) l.
Proof.
  induction l as [|x l IH]; cbn; [constructor|].
  destruct (f x); constructor; exact IH.
Qed.

Lemma collect_makerAddresses_In currentPools x :
  In x (collect_makerAddresses PINNED_MM_ADDRESSES PINNED_POOL_IDS currentPools)
  <-> In x PINNED_MM_ADDRESSES
      \/ exists poolStats, In poolStats currentPools
           /\ In (pool_id poolStats) PINNED_POOL_IDS
           /\ In x (maker_addresses poolStats).
Proof.
  unfold collect_makerAddresses. generalize PINNED_MM_ADDRESSES as acc.
  induction currentPools as [|p pools IH]; intros acc; cbn [fold_left].
  - split; [tauto|]. intros [H|(p & [] & _)]. exact H.
  - rewrite IH.
    destruct (includes PINNED_POOL_IDS (pool_id p)) eqn:E; cbn [negb].
    + apply includes_In in E. rewrite in_app_iff. split.
      * intros [[H|H]|(q & Hq & Hid & Hx)]; [tauto| |].
        -- right. exists p. cbn. tauto.
        -- right. exists q. cbn. tauto.
      * intros [H|(q & [<-|Hq] & Hid & Hx)]; [tauto|tauto|].
        right. exists q. tauto.
    + split.
      * intros [H|(q & Hq & Hid & Hx)]; [tauto|]. right. exists q. cbn. tauto.
      * intros [H|(q & [<-|Hq] & Hid & Hx)]; [tauto| |].
        -- apply includes_In in Hid. congruence.
        -- right. exists q. tauto.
Qed.

(** The classifier always returns, with the partition of the batch by the
    addresses collected from the allow-list and the pools in use. *)
Lemma splitOrdersByPinningAsync_run connection signedOrders w :
  splitOrdersByPinningAsync PINNED_MM_ADDRESSES PINNED_POOL_IDS connection signedOrders w
  = (Returned
       (push_orders
          (collect_makerAddresses PINNED_MM_ADDRESSES PINNED_POOL_IDS
             (pools_in_use connection w))
          signedOrders),
     world_after connection w).
Proof.
  unfold splitOrdersByPinningAsync, world_after, pools_in_use, bind, try_catch, ret.
  destruct (getPoolsAsync connection w) as [[[pools|]|error] w']; reflexivity.
Qed.
End ClassifierFacts.

(** C5: whatever the batch and whatever becomes of the pool-stats fetch, the
    classifier returns a stable partition of the batch: the lengths of [pin]
    and [doNotPin] add up to the length of the batch, the two together are a
    rearrangement of the batch (nothing dropped, nothing duplicated), each
    keeps the orders in the order of the batch, and every order of the batch
    is in exactly one of them. *)
Theorem splitOrdersByPinningAsync_stable_partition
  (PINNED_MM_ADDRESSES PINNED_POOL_IDS : list string)
  (connection : Connection) (signedOrders : list SignedLimitOrder) (w : World) :
  exists pinResult w',
    splitOrdersByPinningAsync PINNED_MM_ADDRESSES PINNED_POOL_IDS connection signedOrders w
    = (Returned pinResult, w') /\
    (length (pin pinResult) + length (doNotPin pinResult) = length signedOrders)%nat /\
    Permutation (pin pinResult ++ doNotPin pinResult) signedOrders /\
    sublist (pin pinResult) signedOrders /\
    sublist (doNotPin pinResult) signedOrders /\
    (forall o, In o signedOrders ->
       (In o (pin pinResult) /\ ~ In o (doNotPin pinResult)) \/
       (~ In o (pin pinResult) /\ In o (doNotPin pinResult))).
Proof.
  eexists. eexists. split; [apply splitOrdersByPinningAsync_run|].
  rewrite push_orders_filter. cbn [pin doNotPin].
  set (f := pinned_by _).
  split; [apply filter_split_length|].
  split; [apply filter_split_Permutation|].
  split; [apply filter_sublist|].
  split; [apply filter_sublist|].
  intros o Ho. rewrite !filter_In.
  destruct (f o); cbn [negb]; [left | right]; intuition congruence.
Qed.

(** C6: an order of the batch is placed in [pin] exactly when its maker
    address is, character for character, in the allow-list or among the maker
    addresses of a pool in use whose identifier is in the trusted set; every
    other order goes to [doNotPin].  Pools with another identifier add
    nothing, and no letter case is changed before the comparison. *)
Theorem splitOrdersByPinningAsync_pins_reputable
  (PINNED_MM_ADDRESSES PINNED_POOL_IDS : list string)
  (connection : Connection) (signedOrders : list SignedLimitOrder) (w : World) :
  exists pinResult w',
    splitOrdersByPinningAsync PINNED_MM_ADDRESSES PINNED_POOL_IDS connection signedOrders w
    = (Returned pinResult, w') /\
    (forall o,
       In o (pin pinResult) <->
       In o signedOrders /\
       (In (maker o) PINNED_MM_ADDRESSES \/
        exists poolStats, In poolStats (pools_in_use connection w)
          /\ In (pool_id poolStats) PINNED_POOL_IDS
          /\ In (maker o) (maker_addresses poolStats))) /\
    (forall o,
       In o (doNotPin pinResult) <->
       In o signedOrders /\
       ~ (In (maker o) PINNED_MM_ADDRESSES \/
          exists poolStats, In poolStats (pools_in_use connection w)
            /\ In (pool_id poolStats) PINNED_POOL_IDS
            /\ In (maker o) (maker_addresses poolStats))).
Proof.
  eexists. eexists. split; [apply splitOrdersByPinningAsync_run|].
  rewrite push_orders_filter. cbn [pin doNotPin].
  split; intros o; rewrite filter_In; unfold pinned_by;
    rewrite <- collect_makerAddresses_In, <- includes_In;
    destruct (includes _ (maker o)); cbn [negb]; intuition congruence.
Qed.

(** The comparison of addresses is the comparison of the strings: an address
    that differs from an allow-listed one in letter case only is not
    pinned. *)
Example pinning_is_case_sensitive :
  fst (splitOrdersByPinningAsync ["0xabcdef"] []
         {| query := fun _ => Returned (Some []) |}
         [order_of_maker "0xABCDEF"; order_of_maker "0xabcdef"] (initial_world 0))
  = Returned {| pin := [order_of_maker "0xabcdef"];
                doNotPin := [order_of_maker "0xABCDEF"] |}.
Proof. vm_compute. reflexivity. Qed.

(** Only the pools with a trusted identifier count. *)
Example untrusted_pools_add_nothing :
  fst (splitOrdersByPinningAsync ["0xaa"] ["7"]
         {| query := fun _ =>
              Returned (Some [ {| pool_id := "7"; maker_addresses := ["0xbb"] |};
                               {| pool_id := "8"; maker_addresses := ["0xcc"] |} ]) |}
         [order_of_maker "0xcc"; order_of_maker "0xbb"; order_of_maker "0xaa"]
         (initial_world 0))
  = Returned {| pin := [order_of_maker "0xbb"; order_of_maker "0xaa"];
                doNotPin := [order_of_maker "0xcc"] |}.
Proof. vm_compute. reflexivity. Qed.

(** C7: an order of the batch whose maker address is in the allow-list is
    placed in [pin], in every world and with every connection, that is,
    whether the pools are fetched, served from the cache or the fetch
    fails. *)
Theorem splitOrdersByPinningAsync_allow_list_wins
  (PINNED_MM_ADDRESSES PINNED_POOL_IDS : list string)
  (connection : Connection) (signedOrders : list SignedLimitOrder) (w : World)
  (o : SignedLimitOrder) :
  In o signedOrders ->
  In (maker o) PINNED_MM_ADDRESSES ->
  exists pinResult w',
    splitOrdersByPinningAsync PINNED_MM_ADDRESSES PINNED_POOL_IDS connection signedOrders w
    = (Returned pinResult, w') /\
    In o (pin pinResult).
Proof.
  intros Ho Hmaker.
  eexists. eexists. split; [apply splitOrdersByPinningAsync_run|].
  rewrite push_orders_filter. cbn [pin].
  apply filter_In. split; [exact Ho|].
  unfold pinned_by. apply includes_In, collect_makerAddresses_In. left. exact Hmaker.
Qed.

(** C8: when [getPoolsAsync] throws, the classifier does not throw: it logs
    one warning with the error and returns the partition of the batch by the
    allow-list alone, the same result as with no pools at all. *)
Theorem splitOrdersByPinningAsync_fetch_failure
  (PINNED_MM_ADDRESSES PINNED_POOL_IDS : list string)
  (connection : Connection) (signedOrders : list SignedLimitOrder) (w w1 : World)
  (error : string) :
  getPoolsAsync connection w = (Threw error, w1) ->
  exists pinResult w',
    splitOrdersByPinningAsync PINNED_MM_ADDRESSES PINNED_POOL_IDS connection signedOrders w
    = (Returned pinResult, w') /\
    warnings w' = warnings w1 ++ ["stakingPoolsQuery threw an error: " +:+ error] /\
    PIN_CACHE w' = PIN_CACHE w1 /\
    pinResult = push_orders PINNED_MM_ADDRESSES signedOrders /\
    pin pinResult
    = List.filter (fun o => includes PINNED_MM_ADDRESSES (maker o)) signedOrders /\
    doNotPin pinResult
    = List.filter (fun o => negb (includes PINNED_MM_ADDRESSES (maker o))) signedOrders.
Proof.
  intros Hthrow.
  eexists. eexists. split; [apply splitOrdersByPinningAsync_run|].
  unfold world_after, pools_in_use. rewrite Hthrow. cbn.
  split; [reflexivity|]. split; [reflexivity|]. split; [reflexivity|].
  rewrite push_orders_filter. split; reflexivity.
Qed.

(** ** The pin cache *)

Lemma getPoolsAsync_run connection w :
  cache_as_created w ->
  getPoolsAsync connection w
  = if fetch_due w then fetch_through (cache_in_use connection w) w
    else match cached_entry w with
         | Some cached =>
             (Returned (result cached),
              {| now := now w; PIN_CACHE := Some (cache_in_use connection w);
                 queryCount := queryCount w; warnings := warnings w |})
         | None => fetch_through (cache_in_use connection w) w
         end.
Proof.
  intros Hcreated.
  unfold getPoolsAsync, getResultAsync, fetch_due, cached_entry, cache_in_use, fetch_through,
    bind, ret, get_PIN_CACHE, set_PIN_CACHE, Date_now, connection_query.
  destruct (PIN_CACHE w) as [cache|] eqn:Ecache; cbn.
  - rewrite (Hcreated cache Ecache).
    destruct (entry cache) as [cached|] eqn:Eentry; cbn;
      [destruct (TEN_MINUTES_MS <? now w - timestamp cached); cbn|];
      rewrite ?Ecache; try reflexivity;
      destruct (query (fn cache) (now w)); reflexivity.
  - destruct (query connection (now w)); reflexivity.
Qed.

(** A fetch that is due and fails makes [getPoolsAsync] throw, and leaves the
    entry of the cache as it was. *)
Lemma getPoolsAsync_fetch_fails connection w error :
  cache_as_created w ->
  fetch_due w = true ->
  query (fn (cache_in_use connection w)) (now w) = Threw error ->
  fst (getPoolsAsync connection w) = Threw error
  /\ cached_entry (snd (getPoolsAsync connection w)) = cached_entry w.
Proof.
  intros Hcreated Hdue Hfail. rewrite getPoolsAsync_run by assumption.
  rewrite Hdue. unfold fetch_through. rewrite Hfail. cbn.
  split; [reflexivity|].
  unfold cached_entry, cache_in_use. cbn. destruct (PIN_CACHE w); reflexivity.
Qed.

(** [getPoolsAsync] throws only when the query it issues fails. *)
Lemma getPoolsAsync_throws_only_on_failure connection w error :
  cache_as_created w ->
  fst (getPoolsAsync connection w) = Threw error ->
  fetch_due w = true /\ query (fn (cache_in_use connection w)) (now w) = Threw error.
Proof.
  intros Hcreated. rewrite getPoolsAsync_run by assumption.
  unfold fetch_due, fetch_through.
  destruct (cached_entry w) as [cached|];
    [destruct (TEN_MINUTES_MS <? now w - timestamp cached)|];
    try destruct (query _ _) eqn:Eq; cbn; intros E; try discriminate E;
    injection E as ->; split; reflexivity.
Qed.

Lemma getPoolsAsync_queryCount connection w :
  cache_as_created w ->
  queryCount (snd (getPoolsAsync connection w))
  = if fetch_due w then S (queryCount w) else queryCount w.
Proof.
  intros Hcreated. rewrite getPoolsAsync_run by assumption.
  unfold fetch_due, fetch_through.
  destruct (cached_entry w) as [cached|].
  - destruct (TEN_MINUTES_MS <? now w - timestamp cached); [|reflexivity].
    destruct (query _ _); reflexivity.
  - destruct (query _ _); reflexivity.
Qed.

Lemma getPoolsAsync_cache_as_created connection w :
  cache_as_created w -> cache_as_created (snd (getPoolsAsync connection w)).
Proof.
  intros Hcreated. rewrite getPoolsAsync_run by assumption.
  assert (Hin_use : cacheExpiryMs (cache_in_use connection w) = TEN_MINUTES_MS).
  { unfold cache_in_use. destruct (PIN_CACHE w) eqn:E; [apply Hcreated, E | reflexivity]. }
  unfold fetch_due, fetch_through.
  destruct (cached_entry w) as [cached|];
    [destruct (TEN_MINUTES_MS <? now w - timestamp cached)|];
    try destruct (query _ _); intros cache [= <-]; cbn; assumption.
Qed.

Lemma world_after_queryCount connection w :
  queryCount (world_after connection w) = queryCount (snd (getPoolsAsync connection w)).
Proof.
  unfold world_after. destruct (getPoolsAsync connection w) as [[rows|error] w']; reflexivity.
Qed.

Lemma world_after_PIN_CACHE connection w :
  PIN_CACHE (world_after connection w) = PIN_CACHE (snd (getPoolsAsync connection w)).
Proof.
  unfold world_after. destruct (getPoolsAsync connection w) as [[rows|error] w']; reflexivity.
Qed.

Lemma world_after_cache_as_created connection w :
  cache_as_created w -> cache_as_created (world_after connection w).
Proof.
  intros Hcreated cache E. rewrite world_after_PIN_CACHE in E.
  exact (getPoolsAsync_cache_as_created connection w Hcreated cache E).
Qed.

Lemma initial_world_cache_as_created t : cache_as_created (initial_world t).
Proof. intros cache E. discriminate E. Qed.

Lemma fetch_due_spec w :
  fetch_due w = true <->
  cached_entry w = None \/
  exists cached, cached_entry w = Some cached /\ TEN_MINUTES_MS < now w - timestamp cached.
Proof.
  unfold fetch_due. destruct (cached_entry w) as [cached|].
  - rewrite Z.ltb_lt. split.
    + intros H. right. exists cached. split; [reflexivity | exact H].
    + intros [E|(c & [= <-] & H)]; [discriminate | exact H].
  - split; [intros _; left; reflexivity | reflexivity].
Qed.

Lemma cached_entry_world_after connection w :
  cached_entry (world_after connection w) = cached_entry (snd (getPoolsAsync connection w)).
Proof. unfold cached_entry. rewrite world_after_PIN_CACHE. reflexivity. Qed.

(** The entry [getPoolsAsync] leaves in the cache: the rows of a fetch that
    succeeded, stamped with the time of the fetch, and else the entry that
    was there. *)
Lemma getPoolsAsync_entry connection w :
  cache_as_created w ->
  cached_entry (snd (getPoolsAsync connection w))
  = if fetch_due w then
      match query (fn (cache_in_use connection w)) (now w) with
      | Returned rows => Some {| timestamp := now w; result := rows |}
      | Threw _ => cached_entry w
      end
    else cached_entry w.
Proof.
  intros Hcreated. rewrite getPoolsAsync_run by assumption.
  unfold fetch_due, fetch_through, cache_in_use, cached_entry.
  destruct (PIN_CACHE w) as [cache|] eqn:Ecache.
  - destruct (entry cache) as [cached|] eqn:Eentry;
      [destruct (TEN_MINUTES_MS <? now w - timestamp cached)|];
      try destruct (query _ _); cbn; congruence.
  - destruct (query _ _); reflexivity.
Qed.

(** A call that finds an entry no older than ten minutes hands over the rows
    of that entry. *)
Lemma getPoolsAsync_served connection w cached :
  cache_as_created w ->
  cached_entry w = Some cached -> now w - timestamp cached <= TEN_MINUTES_MS ->
  fst (getPoolsAsync connection w) = Returned (result cached).
Proof.
  intros Hcreated Hentry Hfresh. rewrite getPoolsAsync_run by assumption.
  unfold fetch_due. rewrite Hentry.
  destruct (Z.ltb_spec TEN_MINUTES_MS (now w - timestamp cached)); [lia | reflexivity].
Qed.

(** C9: a call of the classifier issues the staking-pools query exactly when
    the pin cache has no entry or its entry is older than 10 minutes, and
    otherwise issues none.  When the query it issues returns rows, the call
    leaves them in the cache stamped with the time of the call, and a second
    call made no later than 10 minutes after that time, whatever its
    connection and batch, issues no query and classifies with those rows: the
    one fetch serves both calls; a second call made later than that issues
    the query again.  A call whose query fails, or which issues none, leaves
    the entry of the cache as it was, so that the time stamp of the entry is
    always the time of the last fetch that succeeded; and a call made no
    later than 10 minutes after the time stamp of the entry issues no
    query. *)
Theorem pin_cache_refresh_policy
  (PINNED_MM_ADDRESSES PINNED_POOL_IDS : list string)
  (connection1 connection2 : Connection)
  (signedOrders1 signedOrders2 : list SignedLimitOrder) (w : World) (t2 : Z) :
  cache_as_created w ->
  let w1 :=
    snd (splitOrdersByPinningAsync PINNED_MM_ADDRESSES PINNED_POOL_IDS
           connection1 signedOrders1 w) in
  let second :=
    splitOrdersByPinningAsync PINNED_MM_ADDRESSES PINNED_POOL_IDS
      connection2 signedOrders2 (at_time t2 w1) in
  let w2 := snd second in
  (queryCount w1 = S (queryCount w) <->
   cached_entry w = None \/
   exists cached, cached_entry w = Some cached /\ TEN_MINUTES_MS < now w - timestamp cached) /\
  (queryCount w1 = queryCount w <->
   exists cached, cached_entry w = Some cached /\ now w - timestamp cached <= TEN_MINUTES_MS) /\
  (forall rows,
     queryCount w1 = S (queryCount w) ->
     query (fn (cache_in_use connection1 w)) (now w) = Returned rows ->
     cached_entry w1 = Some {| timestamp := now w; result := rows |} /\
     (t2 - now w <= TEN_MINUTES_MS ->
      queryCount w2 = S (queryCount w) /\
      fst second
      = Returned
          (push_orders
             (collect_makerAddresses PINNED_MM_ADDRESSES PINNED_POOL_IDS
                (match rows with Some pools => pools | None => [] end))
             signedOrders2)) /\
     (TEN_MINUTES_MS < t2 - now w -> queryCount w2 = S (S (queryCount w)))) /\
  (forall error,
     queryCount w1 = S (queryCount w) ->
     query (fn (cache_in_use connection1 w)) (now w) = Threw error ->
     cached_entry w1 = cached_entry w) /\
  (queryCount w1 = queryCount w -> cached_entry w1 = cached_entry w) /\
  (forall cached,
     cached_entry w1 = Some cached -> t2 - timestamp cached <= TEN_MINUTES_MS ->
     queryCount w2 = queryCount w1) /\
  cache_as_created w1.
Proof.
  intros Hcreated w1 second w2. subst w1 second w2.
  rewrite !splitOrdersByPinningAsync_run. cbn [fst snd].
  set (w1 := world_after connection1 w).
  assert (Hcreated1 : cache_as_created w1) by (apply world_after_cache_as_created, Hcreated).
  assert (Hcreated2 : cache_as_created (at_time t2 w1)).
  { intros cache E. apply Hcreated1. exact E. }
  assert (Hcount : queryCount w1 = if fetch_due w then S (queryCount w) else queryCount w).
  { unfold w1. rewrite world_after_queryCount. apply getPoolsAsync_queryCount, Hcreated. }
  assert (Hentry : cached_entry w1
                   = if fetch_due w then
                       match query (fn (cache_in_use connection1 w)) (now w) with
                       | Returned rows => Some {| timestamp := now w; result := rows |}
                       | Threw _ => cached_entry w
                       end
                     else cached_entry w).
  { unfold w1. rewrite cached_entry_world_after. apply getPoolsAsync_entry, Hcreated. }
  assert (Hsecond : forall cached,
             cached_entry w1 = Some cached -> t2 - timestamp cached <= TEN_MINUTES_MS ->
             queryCount (world_after connection2 (at_time t2 w1)) = queryCount w1).
  { intros cached Hcached Hfresh.
    rewrite world_after_queryCount, getPoolsAsync_queryCount by assumption.
    unfold fetch_due, cached_entry, at_time. cbn [PIN_CACHE now].
    unfold cached_entry in Hcached. rewrite Hcached.
    destruct (Z.ltb_spec TEN_MINUTES_MS (t2 - timestamp cached)); [lia | reflexivity]. }
  split; [|split; [|split; [|split; [|split; [|split]]]]].
  - rewrite <- fetch_due_spec, Hcount. destruct (fetch_due w); split; intros; try lia; congruence.
  - rewrite Hcount. pose proof (fetch_due_spec w) as Hspec. unfold fetch_due in *.
    destruct (cached_entry w) as [cached|].
    + destruct (Z.ltb_spec TEN_MINUTES_MS (now w - timestamp cached)).
      * split; [lia|]. intros (c & [= <-] & H'). lia.
      * split; [|reflexivity]. intros _. exists cached. split; [reflexivity | lia].
    + split; [lia|]. intros (c & E & _). discriminate E.
  - intros rows Hissued Hrows.
    assert (Hdue : fetch_due w = true).
    { rewrite Hcount in Hissued. destruct (fetch_due w); [reflexivity | lia]. }
    rewrite Hdue, Hrows in Hentry. rewrite Hdue in Hcount.
    split; [exact Hentry | split].
    + intros Hfresh. split.
      * rewrite (Hsecond _ Hentry Hfresh). exact Hcount.
      * unfold pools_in_use.
        rewrite (getPoolsAsync_served connection2 (at_time t2 w1) _ Hcreated2 Hentry Hfresh).
        cbn [result]. destruct rows; reflexivity.
    + intros Hstale.
      rewrite world_after_queryCount, getPoolsAsync_queryCount by assumption.
      unfold fetch_due. change (cached_entry (at_time t2 w1)) with (cached_entry w1).
      rewrite Hentry. cbn [now at_time timestamp].
      destruct (Z.ltb_spec TEN_MINUTES_MS (t2 - now w)); [|lia].
      change (queryCount (at_time t2 w1)) with (queryCount w1). rewrite Hcount. reflexivity.
  - intros error Hissued Hfails.
    assert (Hdue : fetch_due w = true).
    { rewrite Hcount in Hissued. destruct (fetch_due w); [reflexivity | lia]. }
    rewrite Hdue, Hfails in Hentry. exact Hentry.
  - intros Hnone.
    assert (Hdue : fetch_due w = false).
    { rewrite Hcount in Hnone. destruct (fetch_due w); [lia | reflexivity]. }
    rewrite Hdue in Hentry. exact Hentry.
  - exact Hsecond.
  - exact Hcreated1.
Qed.

(** The scenario of the specification: one query for two calls a second
    apart, a second query once the interval has elapsed. *)
Example cache_freshness_example :
  let connection :=
    {| query := fun _ => Returned (Some [ {| pool_id := "7"; maker_addresses := ["0xbb"] |} ]) |} in
  let call t w := snd (splitOrdersByPinningAsync [] ["7"] connection [] (at_time t w)) in
  let w1 := call 0 (initial_world 0) in
  let w2 := call 1000 w1 in
  let w3 := call (TEN_MINUTES_MS + 1) w2 in
  queryCount w1 = 1%nat /\ queryCount w2 = 1%nat /\ queryCount w3 = 2%nat.
Proof. vm_compute. repeat split. Qed.

Lemma pin_cache_refresh_policy_witness :
  let pools := [ {| pool_id := "7"; maker_addresses := ["0xbb"] |} ] in
  let connection := {| query := fun _ => Returned (Some pools) |} in
  let w1 := snd (splitOrdersByPinningAsync [] ["7"] connection [] (initial_world 0)) in
  let second :=
    splitOrdersByPinningAsync [] ["7"] connection [order_of_maker "0xbb"] (at_time 1000 w1) in
  queryCount w1 = 1%nat /\
  cached_entry w1 = Some {| timestamp := 0; result := Some pools |} /\
  queryCount (snd second) = 1%nat /\
  fst second = Returned {| pin := [order_of_maker "0xbb"]; doNotPin := [] |}.
Proof.
  intros pools connection w1 second.
  destruct (pin_cache_refresh_policy [] ["7"] connection connection [] [order_of_maker "0xbb"]
              (initial_world 0) 1000 (initial_world_cache_as_created 0))
    as (Hfetch & _ & Hfilled & _).
  assert (Hissued : queryCount w1 = 1%nat) by (apply Hfetch; left; reflexivity).
  destruct (Hfilled (Some pools) Hissued eq_refl) as (Hentry & Hserved & _).
  destruct Hserved as (Hcount & Hpins); [vm_compute; discriminate|].
  split; [exact Hissued|]. split; [exact Hentry|]. split; [exact Hcount | exact Hpins].
Defined.

Lemma splitOrdersByPinningAsync_allow_list_wins_witness :
  exists pinResult w',
    splitOrdersByPinningAsync ["0xaa"] ["7"] {| query := fun _ => Threw "connection refused" |}
      [order_of_maker "0xcc"; order_of_maker "0xaa"] (initial_world 0)
    = (Returned pinResult, w') /\
    In (order_of_maker "0xaa") (pin pinResult).
Proof.
  apply (splitOrdersByPinningAsync_allow_list_wins ["0xaa"] ["7"]
           {| query := fun _ => Threw "connection refused" |}
           [order_of_maker "0xcc"; order_of_maker "0xaa"] (initial_world 0)
           (order_of_maker "0xaa")).
  - right. left. reflexivity.
  - left. reflexivity.
Defined.

Lemma splitOrdersByPinningAsync_fetch_failure_witness :
  exists pinResult w',
    splitOrdersByPinningAsync ["0xaa"] ["7"] {| query := fun _ => Threw "connection refused" |}
      [order_of_maker "0xcc"; order_of_maker "0xaa"] (initial_world 0)
    = (Returned pinResult, w') /\
    warnings w' = ["stakingPoolsQuery threw an error: connection refused"] /\
    pin pinResult = [order_of_maker "0xaa"] /\
    doNotPin pinResult = [order_of_maker "0xcc"].
Proof.
  destruct (splitOrdersByPinningAsync_fetch_failure ["0xaa"] ["7"]
              {| query := fun _ => Threw "connection refused" |}
              [order_of_maker "0xcc"; order_of_maker "0xaa"] (initial_world 0)
              {| now := 0;
                 PIN_CACHE := Some (createResultCache
                                      {| query := fun _ => Threw "connection refused" |}
                                      TEN_MINUTES_MS);
                 queryCount := 1; warnings := [] |}
              "connection refused" eq_refl)
    as (pinResult & w' & Hrun & Hwarn & _ & _ & Hpin & Hdo).
  exists pinResult, w'.
  split; [exact Hrun|]. split; [exact Hwarn|]. split; [exact Hpin | exact Hdo].
Defined.

(** ** The signature round trip *)

Lemma digit_cases d :
  0 <= d < 10 ->
  d = 0 \/ d = 1 \/ d = 2 \/ d = 3 \/ d = 4 \/ d = 5 \/ d = 6 \/ d = 7 \/ d = 8 \/ d = 9.
Proof. lia. Qed.

Ltac each_digit H :=
  apply digit_cases in H;
  repeat match type of H with _ \/ _ => destruct H as [H|H] end; subst.

Lemma digit_char_is_digit d : 0 <= d < 10 -> is_digit (digit_char d) = true.
Proof. intros H. each_digit H; reflexivity. Qed.

Lemma digit_char_value d : 0 <= d < 10 -> digit_value (digit_char d) = d.
Proof. intros H. each_digit H; reflexivity. Qed.

Lemma digit_char_not_comma d : 0 <= d < 10 -> Ascii.eqb (digit_char d) "," = false.
Proof. intros H. each_digit H; reflexivity. Qed.

Lemma parseInt_leading_digit d rest :
  0 <= d < 10 ->
  parseInt (String (digit_char d) rest) = scan_digits (String (digit_char d) rest) None.
Proof. intros H. each_digit H; reflexivity. Qed.

Lemma digits_onto_S fuel n acc :
  digits_onto (S fuel) n acc
  = if n / 10 =? 0 then String (digit_char (n mod 10)) acc
    else digits_onto fuel (n / 10) (String (digit_char (n mod 10)) acc).
Proof. reflexivity. Qed.

Lemma scan_digits_onto fuel : forall n tail acc,
  0 <= n < 2 ^ Z.of_nat (S fuel) ->
  exists k, 0 <= k /\
    scan_digits (digits_onto (S fuel) n tail) acc
    = scan_digits tail (Some (10 ^ k * match acc with Some a => a | None => 0 end + n)).
Proof.
  induction fuel as [|fuel IH]; intros n tail acc Hn;
    rewrite digits_onto_S; pose proof (Z.mod_pos_bound n 10 ltac:(lia)) as Hmod;
    pose proof (Z.div_mod n 10 ltac:(lia)) as Hdm.
  - exists 1. split; [lia|].
    assert (n / 10 = 0) as E by (apply Z.div_small; cbn in Hn; lia).
    rewrite E in *. cbn [Z.eqb scan_digits].
    rewrite digit_char_is_digit, digit_char_value by lia.
    do 2 f_equal. lia.
  - destruct (Z.eqb_spec (n / 10) 0) as [Hsmall|Hbig].
    + exists 1. split; [lia|]. cbn [scan_digits].
      rewrite digit_char_is_digit, digit_char_value by lia.
      do 2 f_equal. lia.
    + assert (Hq : 0 <= n / 10 < 2 ^ Z.of_nat (S fuel)).
      { split; [apply Z.div_pos; lia|].
        apply Z.div_lt_upper_bound; [lia|].
        rewrite (Nat2Z.inj_succ (S fuel)), Z.pow_succ_r in Hn by lia. lia. }
      destruct (IH (n / 10) (String (digit_char (n mod 10)) tail) acc Hq) as (k & Hk & E).
      exists (k + 1). split; [lia|].
      rewrite E. cbn [scan_digits].
      rewrite digit_char_is_digit, digit_char_value by lia.
      do 2 f_equal. rewrite Z.pow_add_r by lia. lia.
Qed.

Lemma decimal_digits_fuel n : 0 <= n -> 0 <= n < 2 ^ Z.of_nat (S (Z.to_nat (Z.log2 n))).
Proof.
  intros Hn. split; [assumption|].
  rewrite Nat2Z.inj_succ, Z2Nat.id by apply Z.log2_nonneg.
  destruct (Z.eq_dec n 0) as [->|Hne]; [reflexivity|].
  apply Z.log2_spec. lia.
Qed.

Lemma scan_decimal_digits n : 0 <= n -> scan_digits (decimal_digits n) None = Some n.
Proof.
  intros Hn. unfold decimal_digits.
  destruct (scan_digits_onto (Z.to_nat (Z.log2 n)) n "" None (decimal_digits_fuel n Hn))
    as (k & Hk & E).
  rewrite E. cbn [scan_digits]. f_equal. lia.
Qed.

Lemma digits_onto_leading fuel : forall n tail,
  exists d rest, 0 <= d < 10 /\ digits_onto (S fuel) n tail = String (digit_char d) rest.
Proof.
  induction fuel as [|fuel IH]; intros n tail; rewrite digits_onto_S;
    pose proof (Z.mod_pos_bound n 10 ltac:(lia)) as Hmod.
  - destruct (n / 10 =? 0); eauto.
  - destruct (n / 10 =? 0); [eauto|]. apply IH.
Qed.

Lemma parseInt_decimal_digits n : 0 <= n -> parseInt (decimal_digits n) = Some n.
Proof.
  intros Hn. rewrite <- (scan_decimal_digits n Hn). unfold decimal_digits.
  destruct (digits_onto_leading (Z.to_nat (Z.log2 n)) n "") as (d & rest & Hd & ->).
  apply parseInt_leading_digit, Hd.
Qed.

Lemma parseInt_Number_toString n : Z.abs n < 10 ^ 21 -> parseInt (Number_toString n) = Some n.
Proof.
  intros Hn. unfold Number_toString.
  destruct (Z.ltb_spec (Z.abs n) (10 ^ 21)) as [_|]; [|lia].
  destruct (Z.ltb_spec n 0) as [Hneg|Hpos].
  - change ("-" +:+ decimal_digits (Z.abs n)) with (String "-" (decimal_digits (Z.abs n))).
    unfold parseInt. cbn [skip_white_space is_white_space].
    change (is_white_space "-") with false. cbv iota.
    rewrite scan_decimal_digits by lia. cbn [option_map]. f_equal. lia.
  - change ("" +:+ decimal_digits (Z.abs n)) with (decimal_digits (Z.abs n)).
    rewrite parseInt_decimal_digits by lia. f_equal. lia.
Qed.

Lemma append_String c a b : String c a +:+ b = String c (a +:+ b).
Proof. reflexivity. Qed.

Lemma append_Empty b : "" +:+ b = b.
Proof. reflexivity. Qed.

Lemma contains_comma_app a b :
  contains_comma (a +:+ b) = contains_comma a || contains_comma b.
Proof.
  induction a as [|c a IH]; [reflexivity|].
  rewrite append_String. cbn [contains_comma]. rewrite IH. apply orb_assoc.
Qed.

Lemma count_commas_app a b :
  (count_commas (a +:+ b) = count_commas a + count_commas b)%nat.
Proof.
  induction a as [|c a IH]; [reflexivity|].
  rewrite append_String. cbn [count_commas]. rewrite IH.
  destruct (Ascii.eqb c ","); reflexivity.
Qed.

Lemma count_commas_none str : contains_comma str = false <-> count_commas str = 0%nat.
Proof.
  induction str as [|c str IH]; cbn; [tauto|].
  destruct (Ascii.eqb c ","); cbn; [split; discriminate | exact IH].
Qed.

Lemma split_comma_length str : length (split_comma str) = S (count_commas str).
Proof.
  induction str as [|c str IH]; cbn; [reflexivity|].
  destruct (Ascii.eqb c ","); cbn; [rewrite IH; reflexivity|].
  destruct (split_comma str); cbn in *; [discriminate | exact IH].
Qed.

Lemma split_comma_comma_free a tail :
  contains_comma a = false ->
  split_comma (a +:+ String "," tail) = a :: split_comma tail.
Proof.
  induction a as [|c a IH]; [reflexivity|].
  rewrite append_String. cbn [contains_comma split_comma].
  destruct (Ascii.eqb c ","); cbn [orb]; [discriminate|].
  intros H. rewrite (IH H). reflexivity.
Qed.

Lemma split_comma_single a : contains_comma a = false -> split_comma a = [a].
Proof.
  induction a as [|c a IH]; cbn; [reflexivity|].
  destruct (Ascii.eqb c ","); cbn; [discriminate|].
  intros H. rewrite (IH H). reflexivity.
Qed.

(** The first piece of a string with a comma is shorter than the string. *)
Lemma split_comma_head_shorter a tail :
  contains_comma a = true ->
  exists piece pieces,
    split_comma (a +:+ tail) = piece :: pieces /\ (String.length piece < String.length a)%nat.
Proof.
  induction a as [|c a IH]; [discriminate|].
  rewrite append_String. cbn [contains_comma split_comma String.length].
  destruct (Ascii.eqb c ","); cbn [orb].
  - intros _. eexists. eexists. split; [reflexivity | cbn; lia].
  - intros H. destruct (IH H) as (piece & pieces & -> & Hlen).
    eexists. eexists. split; [reflexivity | cbn; lia].
Qed.

Lemma digits_onto_comma_free fuel : forall n tail,
  contains_comma tail = false -> contains_comma (digits_onto fuel n tail) = false.
Proof.
  induction fuel as [|fuel IH]; intros n tail Htail; [exact Htail|].
  rewrite digits_onto_S. pose proof (Z.mod_pos_bound n 10 ltac:(lia)) as Hmod.
  assert (Hstep : contains_comma (String (digit_char (n mod 10)) tail) = false).
  { cbn. rewrite digit_char_not_comma by lia. exact Htail. }
  destruct (n / 10 =? 0); [exact Hstep | apply IH, Hstep].
Qed.

Lemma decimal_digits_comma_free n : contains_comma (decimal_digits n) = false.
Proof. apply digits_onto_comma_free. reflexivity. Qed.

Lemma strip_trailing_zeros_comma_free digits :
  contains_comma digits = false -> contains_comma (strip_trailing_zeros digits) = false.
Proof.
  induction digits as [|c digits IH]; cbn; [reflexivity|].
  destruct (Ascii.eqb c ",") eqn:Ec; cbn; [discriminate|]. intros H. specialize (IH H).
  destruct (strip_trailing_zeros digits) as [|c' kept].
  - destruct (Ascii.eqb c "0"); cbn; [reflexivity|]. rewrite Ec. reflexivity.
  - cbn. rewrite Ec. exact IH.
Qed.

Lemma Number_toString_comma_free n : contains_comma (Number_toString n) = false.
Proof.
  unfold Number_toString.
  assert (Hsign : contains_comma (if n <? 0 then "-" else "") = false)
    by (destruct (n <? 0); reflexivity).
  pose proof (decimal_digits_comma_free (Z.abs n)) as Hdigits.
  pose proof (strip_trailing_zeros_comma_free _ Hdigits) as Hstrip.
  pose proof (decimal_digits_comma_free (Z.of_nat (String.length (decimal_digits (Z.abs n))) - 1))
    as Hexp.
  destruct (Z.abs n <? 10 ^ 21).
  - rewrite contains_comma_app, Hsign, Hdigits. reflexivity.
  - destruct (strip_trailing_zeros (decimal_digits (Z.abs n))) as [|d more].
    + rewrite contains_comma_app, Hsign, Hdigits. reflexivity.
    + cbn in Hstrip. apply orb_false_iff in Hstrip as [Hd Hmore].
      destruct more as [|m more'].
      * rewrite contains_comma_app, Hsign. cbn [contains_comma orb].
        rewrite Hd, contains_comma_app, Hexp. reflexivity.
      * rewrite contains_comma_app, Hsign. cbn [contains_comma orb].
        rewrite Hd, !contains_comma_app, Hmore, Hexp. reflexivity.
Qed.

Lemma split_comma_pieces str :
  Forall (fun piece => contains_comma piece = false) (split_comma str).
Proof.
  induction str as [|c str IH]; cbn [split_comma].
  - repeat constructor.
  - destruct (Ascii.eqb c ",") eqn:Ec.
    + constructor; [reflexivity | exact IH].
    + destruct (split_comma str) as [|piece pieces].
      * repeat constructor. cbn. rewrite Ec. reflexivity.
      * inversion IH; subst. constructor; [|assumption].
        cbn. rewrite Ec. assumption.
Qed.

Lemma serializeSignature_unfold sig :
  serializeSignature sig
  = Number_toString (signatureType sig)
    +:+ String "," (r sig +:+ String "," (s sig +:+ String "," (Number_toString (v sig)))).
Proof. reflexivity. Qed.

Lemma count_commas_comma str : count_commas (String "," str) = S (count_commas str).
Proof. reflexivity. Qed.

Lemma serializeSignature_commas sig :
  count_commas (serializeSignature sig)
  = (3 + count_commas (r sig) + count_commas (s sig))%nat.
Proof.
  rewrite serializeSignature_unfold.
  pose proof (proj1 (count_commas_none _) (Number_toString_comma_free (signatureType sig))) as HT.
  pose proof (proj1 (count_commas_none _) (Number_toString_comma_free (v sig))) as HV.
  rewrite count_commas_app, count_commas_comma, count_commas_app, count_commas_comma,
    count_commas_app, count_commas_comma, HT, HV.
  lia.
Qed.

(** *** Overflow of binary64 *)

Lemma digits2_pos_log2 p : Zpos (digits2_pos p) = Z.succ (Z.log2 (Zpos p)).
Proof.
  assert (H : forall q, digits2_pos q = Pos.size q) by (induction q; cbn; congruence).
  destruct p; cbn [Z.log2 digits2_pos]; rewrite ?H, ?Pos2Z.inj_succ; reflexivity.
Qed.

Lemma digits2_pos_bounds p :
  2 ^ (Zpos (digits2_pos p) - 1) <= Zpos p < 2 ^ Zpos (digits2_pos p).
Proof.
  rewrite digits2_pos_log2. replace (Z.succ (Z.log2 (Z.pos p)) - 1) with (Z.log2 (Z.pos p)) by lia.
  apply Z.log2_spec. lia.
Qed.

Lemma iter_pos_nat {A} (f : A -> A) p : forall x,
  SpecFloat.iter_pos f p x = Nat.iter (Pos.to_nat p) f x.
Proof.
  induction p as [p IH|p IH|]; intros x; cbn [SpecFloat.iter_pos].
  - rewrite !IH, Pos2Nat.inj_xI.
    replace (S (2 * Pos.to_nat p)) with (Pos.to_nat p + S (Pos.to_nat p))%nat by lia.
    rewrite Nat.iter_add, Nat.iter_succ_r. reflexivity.
  - rewrite !IH, Pos2Nat.inj_xO.
    replace (2 * Pos.to_nat p)%nat with (Pos.to_nat p + Pos.to_nat p)%nat by lia.
    rewrite Nat.iter_add. reflexivity.
  - reflexivity.
Qed.

(** One step of the shift: the mantissa is halved and the bit shifted out
    becomes the round bit. *)
Lemma shr_1_nonneg mrs :
  0 <= shr_m mrs ->
  shr_m (shr_1 mrs) = shr_m mrs / 2 /\ shr_r (shr_1 mrs) = Z.odd (shr_m mrs).
Proof.
  destruct mrs as [m r s]. cbn [shr_m]. intros Hm.
  destruct m as [|[p|p|]|p]; cbn [shr_1 shr_m shr_r]; try lia.
  - split; reflexivity.
  - split; [|reflexivity]. rewrite Pos2Z.inj_xI. apply Z.div_unique with 1; lia.
  - split; [|reflexivity]. rewrite Pos2Z.inj_xO. apply Z.div_unique with 0; lia.
  - split; reflexivity.
Qed.

Lemma shr_iter_nonneg k : forall mrs,
  0 <= shr_m mrs ->
  shr_m (Nat.iter (S k) shr_1 mrs) = shr_m mrs / 2 ^ Z.of_nat (S k) /\
  shr_r (Nat.iter (S k) shr_1 mrs) = Z.odd (shr_m mrs / 2 ^ Z.of_nat k).
Proof.
  induction k as [|k IH]; intros mrs Hm.
  - cbn [Nat.iter nat_rect]. destruct (shr_1_nonneg mrs Hm) as [E1 E2].
    rewrite E1, E2. change (2 ^ Z.of_nat 1) with 2. change (2 ^ Z.of_nat 0) with 1.
    rewrite Z.div_1_r. split; reflexivity.
  - rewrite Nat.iter_succ.
    destruct (IH mrs Hm) as [E1 E2].
    assert (Hpos : 0 <= shr_m (Nat.iter (S k) shr_1 mrs)).
    { rewrite E1. apply Z.div_pos; [assumption | apply Z.pow_pos_nonneg; lia]. }
    destruct (shr_1_nonneg _ Hpos) as [F1 F2].
    rewrite F1, F2, E1. split; [|reflexivity].
    rewrite Z.div_div by (try apply Z.pow_pos_nonneg; lia).
    rewrite (Nat2Z.inj_succ (S k)), Z.pow_succ_r by lia.
    f_equal. lia.
Qed.

Lemma shr_fexp_canonical m e :
  Zdigits2 m = 53 -> -1074 <= e ->
  shr_fexp 53 1024 m e loc_Exact = ({| shr_m := m; shr_r := false; shr_s := false |}, e).
Proof.
  intros Hd He. unfold shr_fexp. rewrite Hd.
  replace (fexp 53 1024 (53 + e) - e) with 0 by (unfold fexp, emin; lia).
  reflexivity.
Qed.

Lemma shr_fexp_carry e :
  -1074 <= e ->
  shr_fexp 53 1024 (2 ^ 53) e loc_Exact
  = ({| shr_m := 2 ^ 52; shr_r := false; shr_s := false |}, e + 1).
Proof.
  intros He. unfold shr_fexp.
  replace (Zdigits2 (2 ^ 53)) with 54 by reflexivity.
  replace (fexp 53 1024 (54 + e) - e) with 1 by (unfold fexp, emin; lia).
  reflexivity.
Qed.

Lemma shr_fexp_long p :
  53 < Zpos (digits2_pos p) ->
  exists mrs,
    shr_fexp 53 1024 (Zpos p) 0 loc_Exact = (mrs, Zpos (digits2_pos p) - 53) /\
    shr_m mrs = Zpos p / 2 ^ (Zpos (digits2_pos p) - 53) /\
    shr_r mrs = Z.odd (Zpos p / 2 ^ (Zpos (digits2_pos p) - 54)).
Proof.
  intros Hd. unfold shr_fexp. cbn [Zdigits2 shr_record_of_loc].
  set (D := Zpos (digits2_pos p)) in *.
  replace (fexp 53 1024 (D + 0) - 0) with (D - 53) by (unfold fexp, emin; lia).
  destruct (D - 53) as [|k|k] eqn:Ek; try lia.
  cbn [shr]. rewrite iter_pos_nat.
  destruct (Pos2Nat.is_succ k) as [k' Ek'].
  rewrite Ek'.
  destruct (shr_iter_nonneg k' {| shr_m := Zpos p; shr_r := false; shr_s := false |})
    as [E1 E2]; [cbn; lia|].
  cbn [shr_m] in E1, E2.
  eexists. split; [reflexivity|]. split.
  - rewrite E1. f_equal. f_equal. lia.
  - rewrite E2. f_equal. f_equal. f_equal. lia.
Qed.

Lemma round_nearest_even_cases mrs :
  let m := shr_m mrs in
  let m' := round_nearest_even m (loc_of_shr_record mrs) in
  (m' = m \/ m' = m + 1) /\
  (Z.odd m = true -> m' = if shr_r mrs then m + 1 else m).
Proof.
  destruct mrs as [m [|] [|]]; cbn; (split; [|intros Hodd]); auto.
  - destruct (Z.even m); auto.
  - rewrite <- Z.negb_odd, Hodd. reflexivity.
Qed.

Lemma digits2_pos_iter_xO p d :
  Zpos (digits2_pos (Pos.iter xO p d)) = Zpos (digits2_pos p) + Zpos d.
Proof.
  induction d as [|d IH] using Pos.peano_ind.
  - cbn [Pos.iter digits2_pos]. lia.
  - rewrite Pos.iter_succ. cbn [digits2_pos]. lia.
Qed.

Lemma Zdigits2_53 m : 2 ^ 52 <= m < 2 ^ 53 -> exists q, m = Zpos q /\ Zpos (digits2_pos q) = 53.
Proof.
  intros [Hlo Hhi]. destruct m as [|q|q]; try lia.
  exists q. split; [reflexivity|].
  pose proof (digits2_pos_bounds q) as [Blo Bhi].
  destruct (Z_lt_le_dec (Zpos (digits2_pos q)) 53) as [Hlt|Hge].
  - assert (2 ^ Zpos (digits2_pos q) <= 2 ^ 52) by (apply Z.pow_le_mono_r; lia). lia.
  - destruct (Z_lt_le_dec 53 (Zpos (digits2_pos q))) as [Hgt|Hle]; [|lia].
    assert (2 ^ 53 <= 2 ^ (Zpos (digits2_pos q) - 1)) by (apply Z.pow_le_mono_r; lia). lia.
Qed.

Lemma binary_round_aux_canonical sx q e :
  Zpos (digits2_pos q) = 53 -> -1074 <= e ->
  binary_round_aux 53 1024 sx (Zpos q) e loc_Exact
  = if e <=? 971 then S754_finite sx q e else S754_infinity sx.
Proof.
  intros Hd He. unfold binary_round_aux.
  rewrite shr_fexp_canonical by assumption.
  cbn [shr_m loc_of_shr_record round_nearest_even].
  rewrite shr_fexp_canonical by assumption.
  reflexivity.
Qed.

(** Rounding a positive integer to binary64: the result is an infinity from
    the midpoint between the largest finite number and [2 ^ 1024] on, and a
    finite number below it. *)
Lemma binary_round_overflow sx p :
  (2 ^ 1024 - 2 ^ 970 <= Zpos p -> binary_round 53 1024 sx p 0 = S754_infinity sx) /\
  (Zpos p < 2 ^ 1024 - 2 ^ 970 -> exists m e, binary_round 53 1024 sx p 0 = S754_finite sx m e).
Proof.
  pose proof (digits2_pos_bounds p) as [Blo Bhi].
  unfold binary_round, shl_align.
  set (D := Zpos (digits2_pos p)) in *.
  replace (fexp 53 1024 (D + 0)) with (Z.max (D - 53) (-1074))
    by (unfold fexp, emin; f_equal; lia).
  assert (HD : 0 < D) by (unfold D; lia).
  rewrite Z.max_l by lia.
  destruct (Z_lt_le_dec D 53) as [Hshort|Hlong].
  - (* fewer than 53 digits: the mantissa is shifted left, exactly *)
    assert (Hp : Zpos p < 2 ^ 52).
    { assert (2 ^ D <= 2 ^ 52) by (apply Z.pow_le_mono_r; lia). lia. }
    destruct (D - 53 - 0) as [|d|d] eqn:Ed; try lia.
    rewrite binary_round_aux_canonical; [| rewrite digits2_pos_iter_xO; fold D; lia | lia].
    destruct (Z.leb_spec (D - 53) 971); [|lia].
    split; [lia | eauto].
  - destruct (Z.eq_dec D 53) as [E53|Hne].
    + assert (Hp : Zpos p < 2 ^ 53) by (rewrite <- E53; exact Bhi).
      replace (D - 53 - 0) with 0 by lia. cbv beta iota.
      rewrite binary_round_aux_canonical by (fold D; lia).
      change (0 <=? 971) with true. cbv iota.
      split; [lia | eauto].
    + destruct (D - 53 - 0) as [|k|k] eqn:Ek; try lia.
      unfold binary_round_aux.
      destruct (shr_fexp_long p) as (mrs & Eshr & Hm & Hr); [fold D; lia|].
      fold D in Eshr, Hm, Hr. rewrite Eshr.
      assert (Hpow : 2 ^ D = 2 ^ 53 * 2 ^ (D - 53)).
      { rewrite <- Z.pow_add_r by lia. f_equal. lia. }
      assert (Hpow' : 2 ^ (D - 1) = 2 ^ 52 * 2 ^ (D - 53)).
      { rewrite <- Z.pow_add_r by lia. f_equal. lia. }
      assert (Hk : 0 < 2 ^ (D - 53)) by (apply Z.pow_pos_nonneg; lia).
      assert (Hm_lo : 2 ^ 52 <= shr_m mrs).
      { rewrite Hm. apply Z.div_le_lower_bound; lia. }
      assert (Hm_hi : shr_m mrs < 2 ^ 53).
      { rewrite Hm. apply Z.div_lt_upper_bound; lia. }
      destruct (round_nearest_even_cases mrs) as [Hround Hodd].
      cbv zeta in Hround, Hodd.
      set (m2 := round_nearest_even (shr_m mrs) (loc_of_shr_record mrs)) in *.
      assert (Hresult :
                (m2 < 2 ^ 53 /\
                 exists q, m2 = Zpos q /\
                   (let '(mrs'', e'') := shr_fexp 53 1024 m2 (D - 53) loc_Exact in
                    match shr_m mrs'' with
                    | 0 => S754_zero sx
                    | Zpos m => if e'' <=? 1024 - 53 then S754_finite sx m e'' else S754_infinity sx
                    | Zneg _ => S754_nan
                    end)
                   = if D - 53 <=? 971 then S754_finite sx q (D - 53) else S754_infinity sx) \/
                (m2 = 2 ^ 53 /\
                 (let '(mrs'', e'') := shr_fexp 53 1024 m2 (D - 53) loc_Exact in
                  match shr_m mrs'' with
                  | 0 => S754_zero sx
                  | Zpos m => if e'' <=? 1024 - 53 then S754_finite sx m e'' else S754_infinity sx
                  | Zneg _ => S754_nan
                  end)
                 = if D - 53 + 1 <=? 971 then S754_finite sx (2 ^ 52)%positive (D - 53 + 1)
                   else S754_infinity sx)).
      { destruct (Z_lt_le_dec m2 (2 ^ 53)) as [Hsmall|Hcarry].
        - left. split; [exact Hsmall|].
          destruct (Zdigits2_53 m2) as (q & Eq & Hq); [lia|].
          exists q. split; [exact Eq|].
          rewrite Eq, shr_fexp_canonical by (cbn [Zdigits2]; lia).
          reflexivity.
        - right. assert (E2 : m2 = 2 ^ 53) by lia. split; [exact E2|].
          rewrite E2, shr_fexp_carry by lia. reflexivity. }
      split.
      * intros Hover.
        assert (HD1024 : 1024 <= D).
        { destruct (Z_lt_le_dec D 1024) as [Hlt|]; [|assumption].
          assert (2 ^ D <= 2 ^ 1023) by (apply Z.pow_le_mono_r; lia). lia. }
        destruct Hresult as [(Hsmall & q & _ & ->)|(Hcarry & ->)].
        -- destruct (Z.leb_spec (D - 53) 971) as [Hle|]; [|reflexivity].
           exfalso. assert (ED : D = 1024) by lia.
           rewrite ED in Hm, Hr.
           change (1024 - 53) with 971 in Hm. change (1024 - 54) with 970 in Hr.
           assert (Hh : 2 ^ 54 - 1 <= Zpos p / 2 ^ 970).
           { apply Z.div_le_lower_bound; lia. }
           assert (Hh' : Zpos p / 2 ^ 970 < 2 ^ 54).
           { apply Z.div_lt_upper_bound; [lia|]. rewrite ED in Bhi. lia. }
           assert (Ehalf : Zpos p / 2 ^ 971 = Zpos p / 2 ^ 970 / 2).
           { rewrite Z.div_div by lia. reflexivity. }
           assert (Eh : Zpos p / 2 ^ 970 = 2 ^ 54 - 1) by lia.
           rewrite Eh in Hr, Ehalf.
           assert (Em : shr_m mrs = 2 ^ 53 - 1).
           { rewrite Hm, Ehalf. reflexivity. }
           change (Z.odd (2 ^ 54 - 1)) with true in Hr.
           rewrite Em, Hr in Hodd. specialize (Hodd eq_refl). lia.
        -- destruct (Z.leb_spec (D - 53 + 1) 971); [lia | reflexivity].
      * intros Hunder.
        assert (HD1024 : D <= 1024).
        { destruct (Z_lt_le_dec 1024 D) as [Hlt|]; [|assumption].
          assert (2 ^ 1024 <= 2 ^ (D - 1)) by (apply Z.pow_le_mono_r; lia). lia. }
        destruct Hresult as [(Hsmall & q & _ & ->)|(Hcarry & ->)].
        -- destruct (Z.leb_spec (D - 53) 971); [eauto | lia].
        -- destruct (Z.leb_spec (D - 53 + 1) 971); [eauto|].
           exfalso. assert (ED : D = 1024) by lia.
           rewrite ED in Hm, Hr.
           change (1024 - 53) with 971 in Hm. change (1024 - 54) with 970 in Hr.
           assert (Hh : Zpos p / 2 ^ 970 < 2 ^ 54 - 1).
           { apply Z.div_lt_upper_bound; lia. }
           assert (Ehalf : Zpos p / 2 ^ 971 = Zpos p / 2 ^ 970 / 2).
           { rewrite Z.div_div by lia. reflexivity. }
           destruct Hround as [Hsame|Hup]; [lia|].
           assert (Em : shr_m mrs = 2 ^ 53 - 1) by lia.
           assert (Eh : Zpos p / 2 ^ 970 = 2 ^ 54 - 2).
           { rewrite Hm, Ehalf in Em.
             pose proof (Z.div_mod (Zpos p / 2 ^ 970) 2 ltac:(lia)).
             pose proof (Z.mod_pos_bound (Zpos p / 2 ^ 970) 2 ltac:(lia)). lia. }
           rewrite Eh in Hr. change (Z.odd (2 ^ 54 - 2)) with false in Hr.
           rewrite Em, Hr in Hodd. specialize (Hodd eq_refl). lia.
Qed.

(** [overflows_binary64] is the overflow of binary64: the integers it
    accepts are rounded to an infinity, and the others to a finite number. *)
Lemma Number_of_Z_overflow n :
  (overflows_binary64 n = true -> Number_of_Z n = S754_infinity (n <? 0)) /\
  (overflows_binary64 n = false ->
   Number_of_Z n = S754_zero false \/ exists m e, Number_of_Z n = S754_finite (n <? 0) m e).
Proof.
  unfold overflows_binary64, Number_of_Z, binary_normalize.
  assert (Hfar : 0 < 2 ^ 1024 - 2 ^ 970) by (vm_compute; reflexivity).
  destruct n as [|p|p]; cbn [Z.abs Z.ltb Z.compare].
  - split; [rewrite Z.leb_le; lia | auto].
  - destruct (binary_round_overflow false p) as [Hover Hunder].
    rewrite Z.leb_le, Z.leb_gt. split; [exact Hover | right; apply Hunder; assumption].
  - destruct (binary_round_overflow true p) as [Hover Hunder].
    rewrite Z.leb_le, Z.leb_gt. split; [exact Hover | right; apply Hunder; assumption].
Qed.

Lemma overflows_binary64_spec n :
  overflows_binary64 n = true <-> 2 ^ 1024 - 2 ^ 970 <= Z.abs n.
Proof. unfold overflows_binary64. apply Z.leb_le. Qed.

Lemma isFinite_Number_of_Z n : isFinite (Number_of_Z n) = negb (overflows_binary64 n).
Proof.
  destruct (Number_of_Z_overflow n) as [Hover Hunder].
  destruct (overflows_binary64 n).
  - rewrite Hover by reflexivity. reflexivity.
  - destruct (Hunder eq_refl) as [E|(m & e & E)]; rewrite E; reflexivity.
Qed.

Lemma assert_isNumber_None value :
  assert_isNumber value = None <->
  value = None \/ exists n, value = Some n /\ 2 ^ 1024 - 2 ^ 970 <= Z.abs n.
Proof.
  destruct value as [n|]; cbn [assert_isNumber].
  - rewrite isFinite_Number_of_Z.
    destruct (overflows_binary64 n) eqn:E; cbn [negb].
    + apply overflows_binary64_spec in E. split; [|reflexivity].
      intros _. right. exists n. split; [reflexivity | assumption].
    + split; [discriminate|]. intros [H|(m & H & Hm)]; [discriminate|].
      injection H as <-. apply overflows_binary64_spec in Hm. congruence.
  - split; auto.
Qed.

Lemma assert_isNumber_small n : Z.abs n < 10 ^ 21 -> assert_isNumber (Some n) = Some n.
Proof.
  intros Hn. cbn [assert_isNumber]. rewrite isFinite_Number_of_Z.
  destruct (overflows_binary64 n) eqn:E; [|reflexivity].
  apply overflows_binary64_spec in E.
  assert (Hfar : 10 ^ 21 < 2 ^ 1024 - 2 ^ 970) by (vm_compute; reflexivity).
  lia.
Qed.

Lemma deserialize_serialize_comma_free sig :
  Z.abs (signatureType sig) < 10 ^ 21 -> Z.abs (v sig) < 10 ^ 21 ->
  contains_comma (r sig) = false -> contains_comma (s sig) = false ->
  deserializeSignature (serializeSignature sig) = Some sig.
Proof.
  intros HT HV Hr Hs. unfold deserializeSignature.
  rewrite serializeSignature_unfold.
  rewrite (split_comma_comma_free _ _ (Number_toString_comma_free _)).
  rewrite (split_comma_comma_free _ _ Hr), (split_comma_comma_free _ _ Hs).
  rewrite (split_comma_single _ (Number_toString_comma_free _)).
  cbn [nth_error parseInt_element].
  rewrite !parseInt_Number_toString by assumption.
  rewrite !assert_isNumber_small by assumption.
  destruct sig; reflexivity.
Qed.

Ltac break_matches H :=
  repeat match type of H with
         | context [match ?x with _ => _ end] => destruct x; try discriminate H
         end.

Lemma deserialize_serialize_comma sig :
  contains_comma (r sig) = true \/ contains_comma (s sig) = true ->
  deserializeSignature (serializeSignature sig) <> Some sig.
Proof.
  intros Hcomma E. unfold deserializeSignature in E.
  rewrite serializeSignature_unfold in E.
  rewrite (split_comma_comma_free _ _ (Number_toString_comma_free _)) in E.
  destruct (contains_comma (r sig)) eqn:Hr.
  - destruct (split_comma_head_shorter (r sig)
                (String "," (s sig +:+ String "," (Number_toString (v sig)))) Hr)
      as (piece & pieces & Hsplit & Hlen).
    rewrite Hsplit in E. cbn [nth_error] in E.
    break_matches E.
    injection E as E. rewrite <- E in Hlen. cbn in Hlen. lia.
  - destruct Hcomma as [|Hs]; [discriminate|].
    rewrite (split_comma_comma_free _ _ Hr) in E.
    destruct (split_comma_head_shorter (s sig) (String "," (Number_toString (v sig))) Hs)
      as (piece & pieces & Hsplit & Hlen).
    rewrite Hsplit in E. cbn [nth_error] in E.
    break_matches E.
    injection E as E. rewrite <- E in Hlen. cbn in Hlen. lia.
Qed.

Lemma comma_free_or_not str : contains_comma str = false \/ contains_comma str = true.
Proof. destruct (contains_comma str); auto. Qed.

(** With [v = 10 ^ 21] the serialization ends in [1e+21], which [parseInt]
    reads as 1: the round trip changes [v]. *)
Lemma signature_round_trip_fails_on_large_integers :
  let sig := mkSignature 2 "0xab" "0xcd" (10 ^ 21) in
  contains_comma (r sig) = false /\ contains_comma (s sig) = false /\
  serializeSignature sig = "2,0xab,0xcd,1e+21" /\
  deserializeSignature (serializeSignature sig) = Some (mkSignature 2 "0xab" "0xcd" 1) /\
  deserializeSignature (serializeSignature sig) <> Some sig.
Proof.
  cbv zeta.
  split; [reflexivity|]. split; [reflexivity|].
  split; [vm_compute; reflexivity|]. split; [vm_compute; reflexivity|].
  vm_compute. discriminate.
Qed.

(** C10, as the code has it: for a signature whose [signatureType] and [v]
    are integers of magnitude below [10 ^ 21], deserializing its
    serialization gives the signature back exactly when neither [r] nor [s] contains a comma, which is
    exactly when the serialization has four fields; and a string whose number
    of fields is not four is the serialization of nothing that
    [deserializeSignature] reads from it. *)
Theorem signature_round_trip (sig : Signature) :
  Z.abs (signatureType sig) < 10 ^ 21 -> Z.abs (v sig) < 10 ^ 21 ->
  (deserializeSignature (serializeSignature sig) = Some sig <->
   contains_comma (r sig) = false /\ contains_comma (s sig) = false) /\
  (length (split_comma (serializeSignature sig)) = 4%nat <->
   contains_comma (r sig) = false /\ contains_comma (s sig) = false) /\
  (forall str read,
     length (split_comma str) <> 4%nat ->
     deserializeSignature str = Some read ->
     serializeSignature read <> str).
Proof.
  intros HT HV. split; [|split].
  - split.
    + intros E.
      destruct (comma_free_or_not (r sig)) as [Hr|Hr], (comma_free_or_not (s sig)) as [Hs|Hs];
        try (split; assumption);
        exfalso; apply (deserialize_serialize_comma sig); auto.
    + intros [Hr Hs]. apply deserialize_serialize_comma_free; assumption.
  - rewrite split_comma_length, serializeSignature_commas, !count_commas_none. lia.
  - intros str read Hcount Hread Hback. apply Hcount.
    rewrite <- Hback, split_comma_length, serializeSignature_commas.
    pose proof (split_comma_pieces str) as Hpieces.
    unfold deserializeSignature in Hread.
    destruct (assert_isNumber (parseInt_element (nth_error (split_comma str) 0)));
      [|discriminate].
    destruct (assert_isNumber (parseInt_element (nth_error (split_comma str) 3)));
      [|discriminate].
    destruct (nth_error (split_comma str) 1) as [r'|] eqn:Er; [|discriminate].
    destruct (nth_error (split_comma str) 2) as [s'|] eqn:Es; [|discriminate].
    injection Hread as <-. cbn [r s].
    apply nth_error_In in Er, Es.
    rewrite List.Forall_forall in Hpieces.
    rewrite (proj1 (count_commas_none r') (Hpieces r' Er)).
    rewrite (proj1 (count_commas_none s') (Hpieces s' Es)). reflexivity.
Qed.

Lemma signature_round_trip_witness :
  deserializeSignature (serializeSignature (mkSignature 2 "0xab" "0xcd" 27))
  = Some (mkSignature 2 "0xab" "0xcd" 27).
Proof.
  apply (signature_round_trip (mkSignature 2 "0xab" "0xcd" 27)).
  - reflexivity.
  - reflexivity.
  - split; reflexivity.
Defined.

(** * Further properties of the module *)

(** ** The comparators on degenerate orders *)

Lemma div_of_Z_zero dp n :
  BigNumber.div dp (BigNumber.of_Z n) (BigNumber.of_Z 0)
  = if n =? 0 then BigNumber.NaN else BigNumber.Infinity (n <? 0).
Proof. reflexivity. Qed.

Lemma div_of_Z_NaN dp n d :
  BigNumber.div dp (BigNumber.of_Z n) (BigNumber.of_Z d) = BigNumber.NaN <-> n = 0 /\ d = 0.
Proof.
  destruct (Z.eq_dec d 0) as [->|Hd].
  - rewrite div_of_Z_zero. destruct (Z.eqb_spec n 0); split; intros H;
      try discriminate; tauto.
  - rewrite div_of_Z by assumption. split; [discriminate | tauto].
Qed.

Lemma comparedTo_None x y :
  BigNumber.comparedTo x y = None <-> x = BigNumber.NaN \/ y = BigNumber.NaN.
Proof.
  destruct x, y; cbn; split; intros H; try discriminate; auto;
    destruct H; discriminate.
Qed.

Lemma number_of_comparison_three_way c : three_way (BigNumber.number_of_comparison c).
Proof. unfold three_way. destruct c; cbn; auto. Qed.

Lemma comparedTo_three_way x y c : BigNumber.comparedTo x y = Some c -> three_way c.
Proof.
  destruct x as [|[]|], y as [|[]|]; cbn; intros [= <-];
    try apply number_of_comparison_three_way; unfold three_way; auto.
Qed.

Lemma isEqualTo_NaN x y :
  x = BigNumber.NaN \/ y = BigNumber.NaN -> BigNumber.isEqualTo x y = false.
Proof.
  intros H. unfold BigNumber.isEqualTo.
  rewrite (proj2 (comparedTo_None x y) H). reflexivity.
Qed.

Lemma comparedTo_Some x y :
  x <> BigNumber.NaN -> y <> BigNumber.NaN -> exists c, BigNumber.comparedTo x y = Some c.
Proof.
  intros Hx Hy. destruct (BigNumber.comparedTo x y) as [c|] eqn:E; [eauto|].
  apply comparedTo_None in E. tauto.
Qed.

(** X1: [compareOrderByFeeRatio] returns [null] exactly when one of the two
    orders has both a zero fee and a zero [takerAmount], the quotient 0/0;
    every other result is -1, 0 or 1. *)
Theorem compareOrderByFeeRatio_null (DECIMAL_PLACES : N) (a b : SignedLimitOrder) :
  (compareOrderByFeeRatio DECIMAL_PLACES a b = None <->
   (takerTokenFeeAmount a = 0 /\ takerAmount a = 0) \/
   (takerTokenFeeAmount b = 0 /\ takerAmount b = 0)) /\
  (forall c, compareOrderByFeeRatio DECIMAL_PLACES a b = Some c -> three_way c).
Proof.
  unfold compareOrderByFeeRatio.
  set (qa := BigNumber.div DECIMAL_PLACES (BigNumber.of_Z (takerTokenFeeAmount a))
               (BigNumber.of_Z (takerAmount a))).
  set (qb := BigNumber.div DECIMAL_PLACES (BigNumber.of_Z (takerTokenFeeAmount b))
               (BigNumber.of_Z (takerAmount b))).
  rewrite <- (div_of_Z_NaN DECIMAL_PLACES (takerTokenFeeAmount a) (takerAmount a)).
  rewrite <- (div_of_Z_NaN DECIMAL_PLACES (takerTokenFeeAmount b) (takerAmount b)).
  fold qa qb. split.
  - split.
    + destruct (BigNumber.isEqualTo qa qb) eqn:E; cbn [negb].
      * rewrite comparedTo_of_Z. discriminate.
      * intros H. apply comparedTo_None in H. tauto.
    + intros H. rewrite isEqualTo_NaN by assumption. cbn [negb].
      apply comparedTo_None. tauto.
  - intros c. destruct (negb (BigNumber.isEqualTo qa qb)); apply comparedTo_three_way.
Qed.

Lemma compareOrderByFeeRatio_number dp a b :
  takerAmount a <> 0 -> takerAmount b <> 0 ->
  exists c, compareOrderByFeeRatio dp a b = Some c /\ three_way c.
Proof.
  intros Ha Hb. rewrite compareOrderByFeeRatio_keys by assumption.
  eexists. split; [reflexivity | apply number_of_comparison_three_way].
Qed.

(** X2: when neither order has a zero [takerAmount], [compareAskOrder] and
    [compareBidOrder] return a number, -1, 0 or 1, and never [null], also for
    an order whose [makerAmount] is zero. *)
Theorem comparators_return_a_number (DECIMAL_PLACES : N) (a b : SignedLimitOrder) :
  takerAmount a <> 0 -> takerAmount b <> 0 ->
  (exists c, compareAskOrder DECIMAL_PLACES a b = Some c /\ three_way c) /\
  (exists c, compareBidOrder DECIMAL_PLACES a b = Some c /\ three_way c).
Proof.
  intros Ha Hb.
  pose proof (compareOrderByFeeRatio_number DECIMAL_PLACES a b Ha Hb) as Hfee.
  split.
  - unfold compareAskOrder.
    set (pa := BigNumber.div _ _ _). set (pb := BigNumber.div _ _ _).
    destruct (negb (BigNumber.isEqualTo pa pb)); [|exact Hfee].
    destruct (comparedTo_Some pa pb) as (c & E).
    + unfold pa. rewrite div_of_Z_NaN. tauto.
    + unfold pb. rewrite div_of_Z_NaN. tauto.
    + exists c. split; [exact E | exact (comparedTo_three_way _ _ _ E)].
  - unfold compareBidOrder.
    rewrite !div_of_Z by assumption.
    destruct (negb _); [|exact Hfee].
    rewrite comparedTo_same_places.
    eexists. split; [reflexivity | apply number_of_comparison_three_way].
Qed.

Lemma comparators_return_a_number_witness :
  exists c, compareAskOrder 78 (order_of_amounts 0 5 1 10) (order_of_amounts 0 7 1 10) = Some c
            /\ three_way c.
Proof.
  apply (comparators_return_a_number 78
           (order_of_amounts 0 5 1 10) (order_of_amounts 0 7 1 10));
    cbn; discriminate.
Defined.

(** X3: an ask that offers nothing, with [makerAmount] zero and a positive
    [takerAmount], has an infinite price: it ranks after every order with
    positive amounts, whichever way round the two are compared. *)
Theorem compareAskOrder_zero_makerAmount_last (DECIMAL_PLACES : N) (a b : SignedLimitOrder) :
  makerAmount a = 0 -> 0 < takerAmount a -> positive_amounts b ->
  compareAskOrder DECIMAL_PLACES a b = Some 1 /\
  compareAskOrder DECIMAL_PLACES b a = Some (-1).
Proof.
  intros Ma Ta [Mb Tb]. unfold compareAskOrder.
  rewrite Ma, div_of_Z_zero, (div_of_Z DECIMAL_PLACES (takerAmount b)) by lia.
  destruct (Z.eqb_spec (takerAmount a) 0) as [|_]; [lia|].
  destruct (Z.ltb_spec (takerAmount a) 0) as [|_]; [lia|].
  split; reflexivity.
Qed.

Lemma compareAskOrder_zero_makerAmount_last_witness :
  compareAskOrder 78 (order_of_amounts 0 5 0 10) (order_of_amounts 100 90 0 10) = Some 1.
Proof.
  apply (compareAskOrder_zero_makerAmount_last 78
           (order_of_amounts 0 5 0 10) (order_of_amounts 100 90 0 10));
    [reflexivity | cbn; lia | concrete_amounts].
Defined.

(** ** Price dominance among bids *)

Lemma compareBidOrder_to_fee dp a b :
  positive_amounts a -> positive_amounts b ->
  compareBidOrder dp a b
  = if bidPrice dp a =? bidPrice dp b then compareOrderByFeeRatio dp a b
    else Some (BigNumber.number_of_comparison (bidPrice dp b ?= bidPrice dp a)).
Proof.
  intros [Ma Ta] [Mb Tb]. unfold compareBidOrder.
  rewrite !div_of_Z by lia.
  rewrite isEqualTo_same_places, comparedTo_same_places.
  fold (bidPrice dp a) (bidPrice dp b).
  destruct (bidPrice dp a =? bidPrice dp b); reflexivity.
Qed.

(** X4: for bid orders with positive amounts, equal fee ratio and equal
    expiry, if [a]'s exact price [makerAmount / takerAmount] is strictly
    higher than [b]'s then [compareBidOrder a b] is -1 or 0, never positive,
    and it is -1 when the two prices are at least [10 ^ -DECIMAL_PLACES]
    apart. *)
Theorem compareBidOrder_price_dominance (DECIMAL_PLACES : N) (a b : SignedLimitOrder) :
  positive_amounts a -> positive_amounts b ->
  takerTokenFeeAmount a * takerAmount b = takerTokenFeeAmount b * takerAmount a ->
  expiry a = expiry b ->
  makerAmount b * takerAmount a < makerAmount a * takerAmount b ->
  (compareBidOrder DECIMAL_PLACES a b = Some (-1) \/
   compareBidOrder DECIMAL_PLACES a b = Some 0) /\
  (takerAmount a * takerAmount b
   <= (makerAmount a * takerAmount b - makerAmount b * takerAmount a)
      * 10 ^ Z.of_N DECIMAL_PLACES ->
   compareBidOrder DECIMAL_PLACES a b = Some (-1)).
Proof.
  intros Ha Hb Hfee Hexp Hprice.
  pose proof Ha as [Ma Ta]. pose proof Hb as [Mb Tb].
  rewrite compareBidOrder_to_fee by assumption.
  assert (Hle : bidPrice DECIMAL_PLACES b <= bidPrice DECIMAL_PLACES a)
    by (unfold bidPrice; apply rounded_ratio_mono; lia).
  assert (Hfee0 : compareOrderByFeeRatio DECIMAL_PLACES a b = Some 0).
  { rewrite compareOrderByFeeRatio_keys by lia.
    rewrite (rounded_ratio_eq DECIMAL_PLACES _ _ _ _ Ta Tb Hfee : feePrice _ a = feePrice _ b).
    rewrite Z.compare_refl, Hexp, Z.compare_refl. reflexivity. }
  split.
  - destruct (Z.eqb_spec (bidPrice DECIMAL_PLACES a) (bidPrice DECIMAL_PLACES b)) as [|Hne].
    + right. exact Hfee0.
    + left. assert (Hlt : bidPrice DECIMAL_PLACES b < bidPrice DECIMAL_PLACES a) by lia.
      apply Z.compare_lt_iff in Hlt. rewrite Hlt. reflexivity.
  - intros Hsep.
    assert (Hlt : bidPrice DECIMAL_PLACES b < bidPrice DECIMAL_PLACES a).
    { unfold bidPrice. apply rounded_ratio_separated; try lia.
      fold (BigNumber.pow10 DECIMAL_PLACES) in Hsep. lia. }
    destruct (Z.eqb_spec (bidPrice DECIMAL_PLACES a) (bidPrice DECIMAL_PLACES b)); [lia|].
    apply Z.compare_lt_iff in Hlt. rewrite Hlt. reflexivity.
Qed.

Lemma compareBidOrder_price_dominance_witness :
  compareBidOrder 78 (order_of_amounts 95 100 20 1000) (order_of_amounts 90 100 20 1000)
  = Some (-1).
Proof.
  apply (compareBidOrder_price_dominance 78
           (order_of_amounts 95 100 20 1000) (order_of_amounts 90 100 20 1000));
    try concrete_amounts; try (cbn; lia); reflexivity.
Defined.

(** ** What [deserializeSignature] accepts *)

Lemma split_comma_append a b :
  split_comma (a +:+ String "," b) = split_comma a ++ split_comma b.
Proof.
  induction a as [|c a IH]; [reflexivity|].
  rewrite append_String. cbn [split_comma]. rewrite IH.
  destruct (Ascii.eqb c ","); [reflexivity|].
  destruct (split_comma a) as [|piece pieces] eqn:E; [|reflexivity].
  pose proof (split_comma_length a) as Hlen. rewrite E in Hlen. discriminate Hlen.
Qed.

Lemma nth_error_nth_default (l : list string) i :
  (i < length l)%nat -> nth_error l i = Some (nth i l EmptyString).
Proof. intros H. apply nth_error_nth'. exact H. Qed.

(** At the threshold of [overflows_binary64] the rounding of binary64 turns
    from the largest finite number to an infinity, for either sign. *)
Example overflows_binary64_threshold :
  Number_of_Z (2 ^ 1024 - 2 ^ 970 - 1) = S754_finite false (2 ^ 53 - 1) 971 /\
  Number_of_Z (2 ^ 1024 - 2 ^ 970) = S754_infinity false /\
  Number_of_Z (- (2 ^ 1024 - 2 ^ 970 - 1)) = S754_finite true (2 ^ 53 - 1) 971 /\
  Number_of_Z (- (2 ^ 1024 - 2 ^ 970)) = S754_infinity true /\
  overflows_binary64 (2 ^ 1024 - 2 ^ 970 - 1) = false /\
  overflows_binary64 (2 ^ 1024 - 2 ^ 970) = true.
Proof. repeat split; vm_compute; reflexivity. Qed.

(** A first field of 309 digits that spells [2 ^ 1024] is read as [Infinity],
    which [assert.isNumber] rejects; [2 ^ 1023], of 308 digits, is read. *)
Example deserializeSignature_overflow_example :
  String.length (decimal_digits (2 ^ 1024)) = 309%nat /\
  parseInt (decimal_digits (2 ^ 1024)) = Some (2 ^ 1024) /\
  deserializeSignature (decimal_digits (2 ^ 1024) +:+ ",0xr,0xs,27") = None /\
  deserializeSignature ("2,0xr,0xs,-" +:+ decimal_digits (2 ^ 1024)) = None /\
  deserializeSignature (decimal_digits (2 ^ 1023) +:+ ",0xr,0xs,27")
  = Some (mkSignature (2 ^ 1023) "0xr" "0xs" 27).
Proof. repeat split; vm_compute; reflexivity. Qed.

(** X5: [deserializeSignature] throws exactly when the string has fewer than
    four comma-separated fields, or its first or its fourth field is not read
    as a finite number: the field does not start (after white space and a
    sign) with a decimal digit, so that [parseInt] gives NaN, or its digits
    spell an integer of magnitude [2 ^ 1024 - 2 ^ 970] or more, which are
    the integers that [parseInt] gives as an infinity
    ([Number_of_Z_overflow]).  It never looks at the fields after the
    fourth, and puts no condition on the second and the third. *)
Theorem deserializeSignature_throws (signatureStr : string) :
  deserializeSignature signatureStr = None <->
  (length (split_comma signatureStr) < 4)%nat \/
  (parseInt (nth 0 (split_comma signatureStr) EmptyString) = None \/
   exists n, parseInt (nth 0 (split_comma signatureStr) EmptyString) = Some n /\
             2 ^ 1024 - 2 ^ 970 <= Z.abs n) \/
  (parseInt (nth 3 (split_comma signatureStr) EmptyString) = None \/
   exists n, parseInt (nth 3 (split_comma signatureStr) EmptyString) = Some n /\
             2 ^ 1024 - 2 ^ 970 <= Z.abs n).
Proof.
  rewrite <- !assert_isNumber_None.
  unfold deserializeSignature.
  destruct (Nat.lt_ge_cases (length (split_comma signatureStr)) 4) as [Hshort|Hlong].
  - split; [auto|]. intros _.
    rewrite (proj2 (nth_error_None (split_comma signatureStr) 3)) by lia.
    destruct (assert_isNumber (parseInt_element (nth_error (split_comma signatureStr) 0)));
      reflexivity.
  - rewrite !nth_error_nth_default by lia. cbn [parseInt_element].
    destruct (assert_isNumber (parseInt (nth 0 (split_comma signatureStr) EmptyString))),
      (assert_isNumber (parseInt (nth 3 (split_comma signatureStr) EmptyString)));
      split; intros H; try discriminate; auto;
      destruct H as [H|[H|H]]; try discriminate; lia.
Qed.

(** X6: what follows the fourth field is ignored: appending a comma and
    anything at all to a string of at least four fields changes nothing in
    what [deserializeSignature] returns. *)
Theorem deserializeSignature_ignores_more_fields (signatureStr more : string) :
  (4 <= length (split_comma signatureStr))%nat ->
  deserializeSignature (signatureStr +:+ String "," more) = deserializeSignature signatureStr.
Proof.
  intros Hlen. unfold deserializeSignature.
  rewrite split_comma_append.
  rewrite !nth_error_app1 by lia. reflexivity.
Qed.

Lemma deserializeSignature_ignores_more_fields_witness :
  deserializeSignature "3,0xr,0xs,28,anything,else"
  = Some (mkSignature 3 "0xr" "0xs" 28).
Proof.
  change "3,0xr,0xs,28,anything,else"
    with ("3,0xr,0xs,28" +:+ String "," "anything,else").
  rewrite (deserializeSignature_ignores_more_fields "3,0xr,0xs,28" "anything,else").
  - reflexivity.
  - cbn. lia.
Defined.

(** X7: what [deserializeSignature] returns is in normal form: if it reads a
    signature whose two numbers are below [10 ^ 21] in magnitude from a
    string, whatever the string, then serializing that signature and
    deserializing again gives the same signature, and the serialization has
    exactly four fields. *)
Theorem deserializeSignature_normal_form (signatureStr : string) (sig : Signature) :
  deserializeSignature signatureStr = Some sig ->
  Z.abs (signatureType sig) < 10 ^ 21 -> Z.abs (v sig) < 10 ^ 21 ->
  deserializeSignature (serializeSignature sig) = Some sig /\
  length (split_comma (serializeSignature sig)) = 4%nat.
Proof.
  intros Hread HT HV.
  assert (Hfree : contains_comma (r sig) = false /\ contains_comma (s sig) = false).
  { pose proof (split_comma_pieces signatureStr) as Hpieces.
    rewrite List.Forall_forall in Hpieces.
    unfold deserializeSignature in Hread.
    destruct (assert_isNumber (parseInt_element (nth_error (split_comma signatureStr) 0)));
      [|discriminate].
    destruct (assert_isNumber (parseInt_element (nth_error (split_comma signatureStr) 3)));
      [|discriminate].
    destruct (nth_error (split_comma signatureStr) 1) as [r'|] eqn:Er; [|discriminate].
    destruct (nth_error (split_comma signatureStr) 2) as [s'|] eqn:Es; [|discriminate].
    injection Hread as <-. cbn [r s].
    apply nth_error_In in Er, Es. split; apply Hpieces; assumption. }
  destruct Hfree as [Hr Hs]. split.
  - apply deserialize_serialize_comma_free; assumption.
  - rewrite split_comma_length, serializeSignature_commas.
    rewrite (proj1 (count_commas_none _) Hr), (proj1 (count_commas_none _) Hs). reflexivity.
Qed.

Lemma deserializeSignature_normal_form_witness :
  deserializeSignature (serializeSignature (mkSignature 2 "0xr" "0xs" 27))
  = Some (mkSignature 2 "0xr" "0xs" 27).
Proof.
  apply (deserializeSignature_normal_form " +2px,0xr,0xs,27.5,rest"
           (mkSignature 2 "0xr" "0xs" 27));
    reflexivity.
Defined.

(** ** Ignored addresses *)

Lemma toLowerCase_char_idempotent c :
  toLowerCase_char (toLowerCase_char c) = toLowerCase_char c.
Proof. destruct c as [[] [] [] [] [] [] [] []]; reflexivity. Qed.

Lemma toLowerCase_idempotent str : toLowerCase (toLowerCase str) = toLowerCase str.
Proof.
  induction str as [|c str IH]; cbn; [reflexivity|].
  rewrite toLowerCase_char_idempotent, IH. reflexivity.
Qed.

Lemma isIgnoredOrder_map addressesToIgnore apiOrder :
  isIgnoredOrder addressesToIgnore apiOrder
  = existsb (includes (matched_addresses apiOrder)) (map toLowerCase addressesToIgnore).
Proof.
  unfold isIgnoredOrder, matched_addresses.
  induction addressesToIgnore as [|a l IH]; cbn [existsb map]; [reflexivity|].
  rewrite IH. reflexivity.
Qed.

(** X8: an order is ignored exactly when some address of the list is equal,
    letter case apart, to its maker, its maker token or its taker token; the
    taker, the sender, the fee recipient and every other field play no
    part. *)
Theorem isIgnoredOrder_ignoring_case (addressesToIgnore : list string) (apiOrder : SRAOrder) :
  isIgnoredOrder addressesToIgnore apiOrder = true <->
  exists addressToIgnore,
    In addressToIgnore addressesToIgnore /\
    (toLowerCase addressToIgnore = toLowerCase (maker (order apiOrder)) \/
     toLowerCase addressToIgnore = toLowerCase (makerToken (order apiOrder)) \/
     toLowerCase addressToIgnore = toLowerCase (takerToken (order apiOrder))).
Proof.
  unfold isIgnoredOrder. rewrite existsb_exists.
  split; intros (a & Ha & H); exists a; (split; [exact Ha|]).
  - apply includes_In in H. cbn in H. intuition congruence.
  - apply includes_In. cbn. intuition congruence.
Qed.

(** X9: the answer of [isIgnoredOrder] does not change when the letter case of
    the listed addresses or of the order's maker, maker token and taker token
    changes: two lists that agree once lower-cased, and two orders whose
    three addresses agree once lower-cased, get the same answer. *)
Theorem isIgnoredOrder_case_invariant (addresses1 addresses2 : list string)
  (apiOrder1 apiOrder2 : SRAOrder) :
  map toLowerCase addresses1 = map toLowerCase addresses2 ->
  toLowerCase (maker (order apiOrder1)) = toLowerCase (maker (order apiOrder2)) ->
  toLowerCase (makerToken (order apiOrder1)) = toLowerCase (makerToken (order apiOrder2)) ->
  toLowerCase (takerToken (order apiOrder1)) = toLowerCase (takerToken (order apiOrder2)) ->
  isIgnoredOrder addresses1 apiOrder1 = isIgnoredOrder addresses2 apiOrder2.
Proof.
  intros Hlist Hmaker HmakerToken HtakerToken.
  rewrite !isIgnoredOrder_map. unfold matched_addresses.
  rewrite Hlist, Hmaker, HmakerToken, HtakerToken. reflexivity.
Qed.

Lemma isIgnoredOrder_case_invariant_witness :
  isIgnoredOrder ["0xABCDEF"]
    (mkSRAOrder (order_of_maker "0xabCDef") (mkSRAOrderMetaData "" 0 None None))
  = isIgnoredOrder ["0xabcdef"]
      (mkSRAOrder (order_of_maker "0xABCdef") (mkSRAOrderMetaData "" 0 None None)).
Proof.
  apply (isIgnoredOrder_case_invariant ["0xABCDEF"] ["0xabcdef"]); reflexivity.
Defined.

(** ** Freshness *)

Section FreshnessFacts.
Variable ONE_SECOND_MS : Number.

Lemma isFreshOrder_run apiOrder expirationBufferSeconds w :
  isFreshOrder ONE_SECOND_MS apiOrder expirationBufferSeconds w
  = (Returned (fresh_at ONE_SECOND_MS (now w) expirationBufferSeconds apiOrder), w).
Proof. reflexivity. Qed.

Lemma groupByFreshness_from_run apiOrders : forall accumulator expirationBufferSeconds w,
  groupByFreshness_from ONE_SECOND_MS accumulator apiOrders expirationBufferSeconds w
  = (Returned
       {| fresh := fresh accumulator
            ++ List.filter (fresh_at ONE_SECOND_MS (now w) expirationBufferSeconds) apiOrders;
          expired := expired accumulator
            ++ List.filter
                 (fun o => negb (fresh_at ONE_SECOND_MS (now w) expirationBufferSeconds o))
                 apiOrders |},
     w).
Proof.
  induction apiOrders as [|o l IH]; intros [f e] buffer w; cbn [groupByFreshness_from].
  - cbn. rewrite !app_nil_r. reflexivity.
  - unfold bind. rewrite isFreshOrder_run, IH. cbn [List.filter].
    destruct (fresh_at ONE_SECOND_MS (now w) buffer o); cbn [negb fresh expired];
      rewrite <- ?app_assoc; reflexivity.
Qed.
End FreshnessFacts.

(** X10: [groupByFreshness] returns, in a world whose clock stands still
    during the call, a stable partition of the orders: [fresh] holds the
    orders that pass the test of [isFreshOrder] at that time and [expired]
    the others, each in the order of the input, nothing dropped and nothing
    duplicated; and the world is left as it was. *)
Theorem groupByFreshness_stable_partition (ONE_SECOND_MS : Number)
  (apiOrders : list SRAOrder) (expirationBufferSeconds : Number) (w : World) :
  exists groups,
    groupByFreshness ONE_SECOND_MS apiOrders expirationBufferSeconds w = (Returned groups, w) /\
    (length (fresh groups) + length (expired groups) = length apiOrders)%nat /\
    Permutation (fresh groups ++ expired groups) apiOrders /\
    sublist (fresh groups) apiOrders /\
    sublist (expired groups) apiOrders /\
    (forall o, In o (fresh groups) <->
       In o apiOrders /\
       fst (isFreshOrder ONE_SECOND_MS o expirationBufferSeconds w) = Returned true) /\
    (forall o, In o (expired groups) <->
       In o apiOrders /\
       fst (isFreshOrder ONE_SECOND_MS o expirationBufferSeconds w) = Returned false).
Proof.
  eexists. split; [apply groupByFreshness_from_run|]. cbn [fresh expired app].
  split; [apply filter_split_length|].
  split; [apply filter_split_Permutation|].
  split; [apply filter_sublist|].
  split; [apply filter_sublist|].
  split; intros o; rewrite filter_In, isFreshOrder_run; cbn [fst];
    destruct (fresh_at ONE_SECOND_MS (now w) expirationBufferSeconds o); cbn [negb];
    intuition congruence.
Qed.

(** The clock at 1700000000.123 seconds and a buffer of ten seconds: an
    expiry of 1700000011 is fresh, one of 1700000010 is not. *)
Example groupByFreshness_example :
  let o e := mkSRAOrder (order_of_amounts 1 1 0 e) (mkSRAOrderMetaData "" 0 None None) in
  fst (groupByFreshness (Number_of_Z 1000)
         [o 1700000010; o 1700000011; o 0; o 1800000000] (Number_of_Z 10)
         (initial_world 1700000000123))
  = Returned {| fresh := [o 1700000011; o 1800000000]; expired := [o 1700000010; o 0] |}.
Proof. vm_compute. reflexivity. Qed.

(** ** More on the classifier *)

(** X11: the classifier decides order by order: in one and the same world,
    the [pin] and the [doNotPin] of two batches put end to end are the [pin]s
    and the [doNotPin]s of the two batches put end to end. *)
Theorem splitOrdersByPinningAsync_batches
  (PINNED_MM_ADDRESSES PINNED_POOL_IDS : list string)
  (connection : Connection) (batch1 batch2 : list SignedLimitOrder) (w : World) :
  exists both first second,
    fst (splitOrdersByPinningAsync PINNED_MM_ADDRESSES PINNED_POOL_IDS connection
           (batch1 ++ batch2) w) = Returned both /\
    fst (splitOrdersByPinningAsync PINNED_MM_ADDRESSES PINNED_POOL_IDS connection batch1 w)
    = Returned first /\
    fst (splitOrdersByPinningAsync PINNED_MM_ADDRESSES PINNED_POOL_IDS connection batch2 w)
    = Returned second /\
    pin both = pin first ++ pin second /\
    doNotPin both = doNotPin first ++ doNotPin second.
Proof.
  eexists. eexists. eexists.
  rewrite !splitOrdersByPinningAsync_run. cbn [fst].
  split; [reflexivity|]. split; [reflexivity|]. split; [reflexivity|].
  rewrite !push_orders_filter. cbn [pin doNotPin].
  rewrite !List.filter_app. split; reflexivity.
Qed.

Lemma getPoolsAsync_keeps_a_cache connection w :
  PIN_CACHE (snd (getPoolsAsync connection w)) <> None.
Proof.
  unfold getPoolsAsync, getResultAsync, bind, ret, get_PIN_CACHE, set_PIN_CACHE, Date_now,
    connection_query, createResultCache.
  destruct (PIN_CACHE w) as [cache|] eqn:Ecache; cbn.
  - destruct (entry cache) as [cached|]; cbn;
      [destruct (cacheExpiryMs cache <? now w - timestamp cached); cbn|];
      try destruct (query (fn cache) (now w)); cbn; rewrite ?Ecache; discriminate.
  - destruct (query connection (now w)); cbn; discriminate.
Qed.

Lemma getPoolsAsync_existing_cache connection1 connection2 w :
  PIN_CACHE w <> None -> getPoolsAsync connection1 w = getPoolsAsync connection2 w.
Proof.
  intros Hcache. unfold getPoolsAsync, bind, get_PIN_CACHE.
  destruct (PIN_CACHE w); [reflexivity | contradiction].
Qed.

(** X12: the pin cache keeps the connection of the call that created it.
    After any one call of the classifier, at whatever later time, the
    connection handed to a call makes no difference to its result or to the
    world it leaves: the staking-pools query, when issued, goes through the
    connection of the first call. *)
Theorem splitOrdersByPinningAsync_first_connection_kept
  (PINNED_MM_ADDRESSES PINNED_POOL_IDS : list string)
  (connection0 connection1 connection2 : Connection)
  (signedOrders0 signedOrders : list SignedLimitOrder) (w : World) (t : Z) :
  let w1 :=
    at_time t (snd (splitOrdersByPinningAsync PINNED_MM_ADDRESSES PINNED_POOL_IDS
                      connection0 signedOrders0 w)) in
  splitOrdersByPinningAsync PINNED_MM_ADDRESSES PINNED_POOL_IDS connection1 signedOrders w1
  = splitOrdersByPinningAsync PINNED_MM_ADDRESSES PINNED_POOL_IDS connection2 signedOrders w1.
Proof.
  intros w1.
  assert (Hcache : PIN_CACHE w1 <> None).
  { unfold w1. rewrite splitOrdersByPinningAsync_run. cbn [snd at_time PIN_CACHE].
    rewrite world_after_PIN_CACHE. apply getPoolsAsync_keeps_a_cache. }
  rewrite !splitOrdersByPinningAsync_run.
  unfold pools_in_use, world_after.
  rewrite (getPoolsAsync_existing_cache connection1 connection2 w1 Hcache). reflexivity.
Qed.

(** A first call through a connection that fails, then a call through one
    that answers: the second call still asks the first connection. *)
Example first_connection_kept_example :
  let failing := {| query := fun _ => Threw "down" |} in
  let answering :=
    {| query := fun _ => Returned (Some [ {| pool_id := "7"; maker_addresses := ["0xbb"] |} ]) |} in
  let w1 := snd (splitOrdersByPinningAsync [] ["7"] failing [] (initial_world 0)) in
  fst (splitOrdersByPinningAsync [] ["7"] answering [order_of_maker "0xbb"] (at_time 5 w1))
  = Returned {| pin := []; doNotPin := [order_of_maker "0xbb"] |}.
Proof. vm_compute. reflexivity. Qed.

(** X13: a longer allow-list and a longer list of trusted pools only ever pin
    more: in one and the same world, an order pinned under one configuration
    is pinned under every configuration that contains it. *)
Theorem splitOrdersByPinningAsync_monotone
  (PINNED_MM_ADDRESSES PINNED_POOL_IDS more_MM_ADDRESSES more_POOL_IDS : list string)
  (connection : Connection) (signedOrders : list SignedLimitOrder) (w : World) :
  exists pinResult morePinResult,
    fst (splitOrdersByPinningAsync PINNED_MM_ADDRESSES PINNED_POOL_IDS
           connection signedOrders w) = Returned pinResult /\
    fst (splitOrdersByPinningAsync (PINNED_MM_ADDRESSES ++ more_MM_ADDRESSES)
           (PINNED_POOL_IDS ++ more_POOL_IDS) connection signedOrders w)
    = Returned morePinResult /\
    (forall o, In o (pin pinResult) -> In o (pin morePinResult)) /\
    (forall o, In o (doNotPin morePinResult) -> In o (doNotPin pinResult)).
Proof.
  eexists. eexists. rewrite !splitOrdersByPinningAsync_run. cbn [fst].
  split; [reflexivity|]. split; [reflexivity|].
  rewrite !push_orders_filter. cbn [pin doNotPin].
  assert (Hmore : forall o,
             pinned_by (collect_makerAddresses PINNED_MM_ADDRESSES PINNED_POOL_IDS
                          (pools_in_use connection w)) o = true ->
             pinned_by (collect_makerAddresses (PINNED_MM_ADDRESSES ++ more_MM_ADDRESSES)
                          (PINNED_POOL_IDS ++ more_POOL_IDS)
                          (pools_in_use connection w)) o = true).
  { intros o. unfold pinned_by. rewrite !includes_In, !collect_makerAddresses_In.
    intros [H|(p & Hp & Hid & Hm)].
    - left. apply in_or_app. left. exact H.
    - right. exists p. split; [exact Hp|]. split; [|exact Hm].
      apply in_or_app. left. exact Hid. }
  split; intros o; rewrite !filter_In; intros [Ho H]; (split; [exact Ho|]).
  - apply Hmore, H.
  - destruct (pinned_by (collect_makerAddresses PINNED_MM_ADDRESSES PINNED_POOL_IDS
                           (pools_in_use connection w)) o) eqn:E; [|reflexivity].
    rewrite (Hmore o E) in H. discriminate H.
Qed.

(** ** Orders through their entities *)

Lemma Z_of_decimal_of_Z n : Z_of_decimal (decimal_of_Z n) = n.
Proof.
  unfold Z_of_decimal, decimal_of_Z.
  destruct (Z.ltb_spec n 0) as [Hneg|Hpos].
  - change ("-" +:+ decimal_digits (Z.abs n)) with (String "-" (decimal_digits (Z.abs n))).
    unfold parseInt. cbn [skip_white_space]. change (is_white_space "-") with false. cbv iota.
    rewrite scan_decimal_digits by lia. cbn [option_map]. lia.
  - change ("" +:+ decimal_digits (Z.abs n)) with (decimal_digits (Z.abs n)).
    rewrite parseInt_decimal_digits by lia. lia.
Qed.

Section EntityFacts.
Variable CHAIN_ID : Z.
Variable BigNumber_toString : Z -> string.
Variable BigNumber_new : string -> Z.
(** What bignumber.js promises of the two: the constructor reads back the
    integer that [toString] printed. *)
Hypothesis BigNumber_round_trip : forall n, BigNumber_new (BigNumber_toString n) = n.

Lemma deserializeOrder_columns apiOrder persistent :
  plain_signature (signature (order apiOrder)) ->
  columns_of persistent = serializeOrder BigNumber_toString apiOrder ->
  deserializeOrder CHAIN_ID BigNumber_new persistent
  = Some {| signature := signature (order apiOrder);
            sender := sender (order apiOrder);
            maker := maker (order apiOrder);
            taker := taker (order apiOrder);
            takerTokenFeeAmount := takerTokenFeeAmount (order apiOrder);
            makerAmount := makerAmount (order apiOrder);
            takerAmount := takerAmount (order apiOrder);
            makerToken := makerToken (order apiOrder);
            takerToken := takerToken (order apiOrder);
            salt := salt (order apiOrder);
            verifyingContract := verifyingContract (order apiOrder);
            feeRecipient := feeRecipient (order apiOrder);
            expiry := expiry (order apiOrder);
            chainId := CHAIN_ID;
            pool := pool (order apiOrder) |}.
Proof.
  intros (HT & HV & Hr & Hs) Hcolumns. unfold deserializeOrder. rewrite Hcolumns.
  unfold serializeOrder. cbn.
  rewrite deserialize_serialize_comma_free by assumption.
  rewrite !BigNumber_round_trip. reflexivity.
Qed.

Lemma with_own_chainId (o : SignedLimitOrder) :
  chainId o = CHAIN_ID ->
  {| signature := signature o; sender := sender o; maker := maker o; taker := taker o;
     takerTokenFeeAmount := takerTokenFeeAmount o; makerAmount := makerAmount o;
     takerAmount := takerAmount o; makerToken := makerToken o; takerToken := takerToken o;
     salt := salt o; verifyingContract := verifyingContract o;
     feeRecipient := feeRecipient o; expiry := expiry o; chainId := CHAIN_ID;
     pool := pool o |} = o.
Proof. intros <-. destruct o; reflexivity. Qed.
End EntityFacts.

(** X14: an order stored with [serializeOrder] and read with
    [deserializeOrder] comes back field for field, provided its signature
    survives the wire format and the BigNumber constructor reads back what
    [toString] printed; only the chain identifier is not stored: the order
    read has [CHAIN_ID], so the order comes back whole exactly when it was
    on that chain. *)
Theorem deserializeOrder_serializeOrder (CHAIN_ID : Z)
  (BigNumber_toString : Z -> string) (BigNumber_new : string -> Z) (apiOrder : SRAOrder) :
  (forall n, BigNumber_new (BigNumber_toString n) = n) ->
  plain_signature (signature (order apiOrder)) ->
  deserializeOrder CHAIN_ID BigNumber_new (Plain (serializeOrder BigNumber_toString apiOrder))
  = Some {| signature := signature (order apiOrder);
            sender := sender (order apiOrder);
            maker := maker (order apiOrder);
            taker := taker (order apiOrder);
            takerTokenFeeAmount := takerTokenFeeAmount (order apiOrder);
            makerAmount := makerAmount (order apiOrder);
            takerAmount := takerAmount (order apiOrder);
            makerToken := makerToken (order apiOrder);
            takerToken := takerToken (order apiOrder);
            salt := salt (order apiOrder);
            verifyingContract := verifyingContract (order apiOrder);
            feeRecipient := feeRecipient (order apiOrder);
            expiry := expiry (order apiOrder);
            chainId := CHAIN_ID;
            pool := pool (order apiOrder) |} /\
  (chainId (order apiOrder) = CHAIN_ID ->
   deserializeOrder CHAIN_ID BigNumber_new (Plain (serializeOrder BigNumber_toString apiOrder))
   = Some (order apiOrder)).
Proof.
  intros Hcodec Hsig.
  pose proof (deserializeOrder_columns CHAIN_ID BigNumber_toString BigNumber_new Hcodec
                apiOrder (Plain (serializeOrder BigNumber_toString apiOrder)) Hsig eq_refl)
    as Hread.
  split; [exact Hread|].
  intros Hchain. rewrite Hread. f_equal. apply with_own_chainId, Hchain.
Qed.

(** X15: an order with its metadata stored with [serializePersistentOrder]
    and read with [deserializeOrderToSRAOrder] keeps its order hash and its
    remaining fillable amount; a missing (or empty) state comes back as
    [ADDED], any other state as it was; the creation time is not stored and
    comes back missing. *)
Theorem deserializeOrderToSRAOrder_serializePersistentOrder (CHAIN_ID : Z)
  (BigNumber_toString : Z -> string) (BigNumber_new : string -> Z) (apiOrder : SRAOrder) :
  (forall n, BigNumber_new (BigNumber_toString n) = n) ->
  plain_signature (signature (order apiOrder)) ->
  chainId (order apiOrder) = CHAIN_ID ->
  deserializeOrderToSRAOrder CHAIN_ID BigNumber_new
    (Persistent (serializePersistentOrder BigNumber_toString apiOrder))
  = Some {| order := order apiOrder;
            metaData :=
              {| orderHash := orderHash (metaData apiOrder);
                 remainingFillableTakerAssetAmount :=
                   remainingFillableTakerAssetAmount (metaData apiOrder);
                 state := Some (or_else (state (metaData apiOrder)) OrderEventEndState_Added);
                 createdAt := None |} |}.
Proof.
  intros Hcodec Hsig Hchain. unfold deserializeOrderToSRAOrder.
  rewrite (deserializeOrder_columns CHAIN_ID BigNumber_toString BigNumber_new Hcodec
             apiOrder (Persistent (serializePersistentOrder BigNumber_toString apiOrder))
             Hsig eq_refl).
  rewrite (with_own_chainId CHAIN_ID _ Hchain). cbn.
  rewrite Hcodec. reflexivity.
Qed.

Lemma deserializeOrder_serializeOrder_witness :
  deserializeOrder 1 Z_of_decimal (Plain (serializeOrder decimal_of_Z stored_example))
  = Some (order stored_example).
Proof.
  apply (deserializeOrder_serializeOrder 1 decimal_of_Z Z_of_decimal stored_example
           Z_of_decimal_of_Z).
  - repeat split; reflexivity.
  - reflexivity.
Defined.

Lemma deserializeOrderToSRAOrder_serializePersistentOrder_witness :
  deserializeOrderToSRAOrder 1 Z_of_decimal
    (Persistent (serializePersistentOrder decimal_of_Z stored_example))
  = Some {| order := order stored_example;
            metaData := {| orderHash := "0xhash"; remainingFillableTakerAssetAmount := 45;
                           state := Some "ADDED"; createdAt := None |} |}.
Proof.
  apply (deserializeOrderToSRAOrder_serializePersistentOrder 1 decimal_of_Z Z_of_decimal
           stored_example Z_of_decimal_of_Z).
  - repeat split; reflexivity.
  - reflexivity.
Defined.

(** ** The order configuration *)

(** X16: [getOrderConfig] gives every request the same response, and the fee
    recipient in it is in lower case: lower-casing it again changes nothing,
    and two configured addresses that differ in letter case only give the
    same response. *)
Theorem getOrderConfig_fee_recipient_lower_case
  (NULL_ADDRESS FEE_RECIPIENT_ADDRESS other_FEE_RECIPIENT_ADDRESS : string)
  (TAKER_FEE_UNIT_AMOUNT : Z) (OrderConfigRequestPayload : Type)
  (request1 request2 : OrderConfigRequestPayload) :
  getOrderConfig NULL_ADDRESS FEE_RECIPIENT_ADDRESS TAKER_FEE_UNIT_AMOUNT
    OrderConfigRequestPayload request1
  = getOrderConfig NULL_ADDRESS FEE_RECIPIENT_ADDRESS TAKER_FEE_UNIT_AMOUNT
      OrderConfigRequestPayload request2 /\
  toLowerCase
    (OrderConfigResponse.feeRecipient
       (getOrderConfig NULL_ADDRESS FEE_RECIPIENT_ADDRESS TAKER_FEE_UNIT_AMOUNT
          OrderConfigRequestPayload request1))
  = OrderConfigResponse.feeRecipient
      (getOrderConfig NULL_ADDRESS FEE_RECIPIENT_ADDRESS TAKER_FEE_UNIT_AMOUNT
         OrderConfigRequestPayload request1) /\
  (toLowerCase FEE_RECIPIENT_ADDRESS = toLowerCase other_FEE_RECIPIENT_ADDRESS ->
   getOrderConfig NULL_ADDRESS FEE_RECIPIENT_ADDRESS TAKER_FEE_UNIT_AMOUNT
     OrderConfigRequestPayload request1
   = getOrderConfig NULL_ADDRESS other_FEE_RECIPIENT_ADDRESS TAKER_FEE_UNIT_AMOUNT
       OrderConfigRequestPayload request1).
Proof.
  unfold getOrderConfig. cbn [OrderConfigResponse.feeRecipient].
  split; [reflexivity|]. split; [apply toLowerCase_idempotent|].
  intros ->. reflexivity.
Qed.
